(** * DistributedFileStorage: replicas, quorum writes and cache coherence

    A shallow embedding of [server.py], [dfs.py] and [client.py].

    - Python [int] is [Z]; [str] is [string]; a [dict] keyed by strings that
      is only looked up and stored into is a [gmap]; the coordinator's
      [servers_by_dc], whose iteration order is observable, is an
      insertion-ordered association list.
    - Objects that are mutated through references live in a store: server
      objects in the coordinator's dict (a reference to a server is its key,
      the dict's values being pairwise distinct objects), client objects in a
      heap addressed by client identity.
    - The coordinator passes its state explicitly and returns a [result];
      client methods, which raise at several points, are computations in a
      state-and-exception monad over the whole system state.
    - [print] calls are not modelled. *)

From Stdlib Require Import ZArith List Bool Lia.
From stdpp Require Import base option list gmap strings fin_maps.

Open Scope Z_scope.

(** ** server.py *)

Inductive DataCenter : Type := NEW_YORK | TORONTO | LONDON.

#[global] Instance DataCenter_eq_dec : EqDecision DataCenter.
Proof. solve_decision. Defined.

Definition DataCenter_value (dc : DataCenter) : string :=
  match dc with
  | NEW_YORK => "New York"
  | TORONTO => "Toronto"
  | LONDON => "London"
  end.

Module FileVersion.
Record t : Type := new { name : string; content : string; version : Z }.
End FileVersion.

(** The only callables the repository ever registers with a server are the
    bound methods [client.invalidate_cache_entry].  Python compares bound
    methods by the identity of the object they are bound to, so a callback
    is the identity of its client. *)
Inductive Callback : Type := invalidate_cache_entry_of (client : nat).

#[global] Instance Callback_eq_dec : EqDecision Callback.
Proof. solve_decision. Defined.

(** [dict.setdefault(k, v)]: the value stored under [k], after storing [v]
    there when [k] was missing. *)
Definition setdefault {V : Type} (d : gmap string V) (k : string) (v : V)
  : V * gmap string V :=
  match d !! k with
  | Some x => (x, d)
  | None => (v, <[k := v]> d)
  end.

Module Server.

Record t : Type := mk {
  dc : DataCenter;
  files : gmap string FileVersion.t;
  alive : bool;
  _cache_listeners : gmap string (list Callback)
}.

(** [Server(dc)] *)
Definition new (d : DataCenter) : t :=
  {| dc := d; files := ∅; alive := true; _cache_listeners := ∅ |}.

Definition set_files (self : t) (fs : gmap string FileVersion.t) : t :=
  {| dc := dc self; files := fs; alive := alive self;
     _cache_listeners := _cache_listeners self |}.

Definition set_alive (self : t) (b : bool) : t :=
  {| dc := dc self; files := files self; alive := b;
     _cache_listeners := _cache_listeners self |}.

Definition set_cache_listeners (self : t) (ls : gmap string (list Callback)) : t :=
  {| dc := dc self; files := files self; alive := alive self;
     _cache_listeners := ls |}.

Definition is_available (self : t) : bool := alive self.

Definition bring_down (self : t) : t := set_alive self false.

Definition bring_up (self : t) : t := set_alive self true.

Definition store_initial_file (self : t) (name content : string) (version : Z) : t :=
  set_files self (<[name := FileVersion.new name content version]> (files self)).

Definition read_file (self : t) (name : string) : option FileVersion.t :=
  if negb (is_available self) then None
  else files self !! name.

(** An existing [FileVersion] object is updated in place (its [name] stays),
    a missing one is created. *)
Definition apply_update (self : t) (name new_content : string) (new_version : Z) : t :=
  if negb (is_available self) then self
  else match files self !! name with
       | Some fv =>
           set_files self
             (<[name := FileVersion.new (FileVersion.name fv) new_content new_version]>
                (files self))
       | None =>
           set_files self
             (<[name := FileVersion.new name new_content new_version]> (files self))
       end.

Definition register_cache_listener (self : t) (file_name : string) (callback : Callback) : t :=
  let '(listeners, d) := setdefault (_cache_listeners self) file_name [] in
  if bool_decide (callback ∈ listeners)
  then set_cache_listeners self d
  else set_cache_listeners self (<[file_name := listeners ++ [callback]]> d).

(** [invalidate_caches] only reads the server; its effect is the sequence of
    calls [cb(file_name)] it makes, in order.  The calls are run against the
    client heap by the coordinator (see [run_calls]). *)
Definition invalidate_caches (self : t) (file_name : string) : list (Callback * string) :=
  let listeners := default [] (_cache_listeners self !! file_name) in
  map (λ cb, (cb, file_name)) listeners.

(** The subscribers of a file (the list the dict holds, none when the key is
    missing). *)
Definition listeners_of (self : t) (file_name : string) : list Callback :=
  default [] (_cache_listeners self !! file_name).

(** The servers the code can build: a fresh one, changed by its methods. *)
Inductive reachable : t → Prop :=
  | reach_new d : reachable (new d)
  | reach_bring_down s : reachable s → reachable (bring_down s)
  | reach_bring_up s : reachable s → reachable (bring_up s)
  | reach_store_initial_file s name content version :
      reachable s → reachable (store_initial_file s name content version)
  | reach_apply_update s name new_content new_version :
      reachable s → reachable (apply_update s name new_content new_version)
  | reach_register_cache_listener s file_name callback :
      reachable s → reachable (register_cache_listener s file_name callback).

(** Every stored subscriber list is duplicate free. *)
Definition wf (self : t) : Prop :=
  ∀ f ls, _cache_listeners self !! f = Some ls → NoDup ls.

End Server.

(** ** Insertion-ordered dictionaries

    [servers_by_dc] is a Python [dict]: keys are unique, iteration follows
    insertion order, and storing under an existing key keeps its position. *)

Section dict.
Context {K V : Type} `{EqDecision K}.

Fixpoint dict_get (d : list (K * V)) (k : K) : option V :=
  match d with
  | [] => None
  | (k', v) :: d' => if decide (k' = k) then Some v else dict_get d' k
  end.

(** [d[k] = v] *)
Fixpoint dict_set (d : list (K * V)) (k : K) (v : V) : list (K * V) :=
  match d with
  | [] => [(k, v)]
  | (k', v') :: d' =>
      if decide (k' = k) then (k', v) :: d' else (k', v') :: dict_set d' k v
  end.

(** Mutation, by [f], of the object stored under [k]. *)
Fixpoint dict_alter (f : V → V) (k : K) (d : list (K * V)) : list (K * V) :=
  match d with
  | [] => []
  | (k', v) :: d' =>
      if decide (k' = k) then (k', f v) :: d' else (k', v) :: dict_alter f k d'
  end.

Definition dict_keys (d : list (K * V)) : list K := map fst d.
End dict.

(** ** Exceptions *)

Inductive exn : Type :=
  | KeyError
  | RuntimeError (msg : string).

Inductive result (A : Type) : Type :=
  | Ok (a : A)
  | Raise (e : exn).
Arguments Ok {A} a.
Arguments Raise {A} e.

(** ** dfs.py *)

Module DistributedFileSystem.

Record t : Type := mk {
  servers_by_dc : list (DataCenter * Server.t);
  primary_table : gmap string DataCenter
}.

(** [{s.dc: s for s in servers}] *)
Definition new (servers : list Server.t) (table : gmap string DataCenter) : t :=
  {| servers_by_dc := foldl (λ d s, dict_set d (Server.dc s) s) [] servers;
     primary_table := table |}.

(** A reference to a server object is its key in [servers_by_dc]. *)
Definition server_at (self : t) (r : DataCenter) : option Server.t :=
  dict_get (servers_by_dc self) r.

(** A mutating method [m] called on the server referenced by [r]. *)
Definition update_at (self : t) (r : DataCenter) (m : Server.t → Server.t) : t :=
  {| servers_by_dc := dict_alter m r (servers_by_dc self);
     primary_table := primary_table self |}.

(** [r.is_available()] *)
Definition is_available_at (self : t) (r : DataCenter) : bool :=
  match server_at self r with
  | Some s => Server.is_available s
  | None => false
  end.

(** [r.read_file(name)] *)
Definition read_file_at (self : t) (r : DataCenter) (name : string)
  : option FileVersion.t :=
  match server_at self r with
  | Some s => Server.read_file s name
  | None => None
  end.

(** Both subscripts raise [KeyError] on a missing key. *)
Definition get_primary_server (self : t) (file_name : string) : result DataCenter :=
  match primary_table self !! file_name with
  | None => Raise KeyError
  | Some primary_dc =>
      match dict_get (servers_by_dc self) primary_dc with
      | None => Raise KeyError
      | Some _ => Ok primary_dc
      end
  end.

(** [list(self.servers_by_dc.values())]: the servers in dict order, as
    references. *)
Definition get_all_servers (self : t) : list DataCenter :=
  dict_keys (servers_by_dc self).

Definition get_best_server_for_read (self : t) (preferred_dc : DataCenter)
  : option DataCenter :=
  let fallback := List.find (is_available_at self) (get_all_servers self) in
  match dict_get (servers_by_dc self) preferred_dc with
  | Some preferred =>
      if Server.is_available preferred then Some preferred_dc else fallback
  | None => fallback
  end.

Definition read_file (self : t) (file_name : string) (preferred_dc : DataCenter)
  : result (option FileVersion.t) :=
  match get_best_server_for_read self preferred_dc with
  | None => Raise (RuntimeError "No replica available to serve read")
  | Some server => Ok (read_file_at self server file_name)
  end.

Section write.
(** The callbacks a primary invokes act on a heap of client objects, which
    the coordinator knows nothing about. *)
Context {Heap : Type} (call : Callback → string → Heap → Heap).

(** Running the calls [cb(arg)] in order. *)
Definition run_calls (calls : list (Callback * string)) (h : Heap) : Heap :=
  foldl (λ h' c, call c.1 c.2 h') h calls.

(** Step 2 of the write: the loop over all replicas. *)
Definition push_to_replicas (self : t) (primary : DataCenter)
    (file_name new_content : string) (new_version : Z) : t :=
  foldl
    (λ d replica,
       if bool_decide (replica ≠ primary) && is_available_at d replica
       then update_at d replica
              (λ s, Server.apply_update s file_name new_content new_version)
       else d)
    self (get_all_servers self).

Definition write_file_with_quorum (self : t) (file_name new_content : string)
    (h : Heap) : result bool * t * Heap :=
  match get_primary_server self file_name with
  | Raise e => (Raise e, self, h)
  | Ok primary =>
      let available_servers :=
        filter (λ s, is_available_at self s = true) (get_all_servers self) in
      let quorum_size := length available_servers in
      if (quorum_size <? 2)%nat then (Ok false, self, h)
      else
        let current := read_file_at self primary file_name in
        let current_version :=
          match current with
          | Some fv => FileVersion.version fv
          | None => 0
          end in
        let new_version := current_version + 1 in
        let self1 :=
          update_at self primary
            (λ s, Server.apply_update s file_name new_content new_version) in
        let self2 :=
          push_to_replicas self1 primary file_name new_content new_version in
        let calls :=
          match server_at self2 primary with
          | Some s => Server.invalidate_caches s file_name
          | None => []
          end in
        (Ok true, self2, run_calls calls h)
  end.
End write.

(** The dict's keys are unique and each server is stored under its own
    data center, so that distinct keys hold distinct server objects. *)
Definition wf (self : t) : Prop :=
  NoDup (dict_keys (servers_by_dc self))
  ∧ Forall (λ e, e.1 = Server.dc e.2) (servers_by_dc self).

End DistributedFileSystem.

(** ** client.py *)

Module CacheEntry.
Record t : Type := mk { content : string; version : Z; valid : bool }.

(** [CacheEntry(content, version)] *)
Definition new (c : string) (v : Z) : t :=
  {| content := c; version := v; valid := true |}.

Definition set_valid (self : t) (b : bool) : t :=
  {| content := content self; version := version self; valid := b |}.
End CacheEntry.

Module Client.

(** The attribute [dfs] of every client is the one coordinator of the
    system state [World] below. *)
Record t : Type := mk {
  name : string;
  preferred_dc : DataCenter;
  cache : gmap string CacheEntry.t
}.

(** [Client(name, dfs, preferred_dc)] *)
Definition new (n : string) (p : DataCenter) : t :=
  {| name := n; preferred_dc := p; cache := ∅ |}.

Definition set_cache (self : t) (c : gmap string CacheEntry.t) : t :=
  {| name := name self; preferred_dc := preferred_dc self; cache := c |}.

Definition invalidate_cache_entry (self : t) (file_name : string) : t :=
  match cache self !! file_name with
  | Some entry =>
      set_cache self (<[file_name := CacheEntry.set_valid entry false]> (cache self))
  | None => self
  end.

(** Client objects, addressed by identity. *)
Definition Heap : Type := nat → t.

Definition update (h : Heap) (a : nat) (m : t → t) : Heap :=
  λ i, if decide (i = a) then m (h i) else h i.

(** Calling a registered callback. *)
Definition call (cb : Callback) (arg : string) (h : Heap) : Heap :=
  match cb with
  | invalidate_cache_entry_of c => update h c (λ self, invalidate_cache_entry self arg)
  end.

Record World : Type := mkWorld {
  dfs : DistributedFileSystem.t;
  clients : Heap
}.

(** State and exceptions. *)
Definition M (A : Type) : Type := World → result A * World.

Definition ret {A : Type} (a : A) : M A := λ w, (Ok a, w).

Definition raise {A : Type} (e : exn) : M A := λ w, (Raise e, w).

Definition bind {A B : Type} (m : M A) (k : A → M B) : M B :=
  λ w, match m w with
       | (Ok a, w') => k a w'
       | (Raise e, w') => (Raise e, w')
       end.

Definition get : M World := λ w, (Ok w, w).

Definition lift {A : Type} (r : result A) : M A := λ w, (r, w).

Definition modify_dfs (m : DistributedFileSystem.t → DistributedFileSystem.t) : M unit :=
  λ w, (Ok tt, {| dfs := m (dfs w); clients := clients w |}).

Definition modify_self (self : nat) (m : t → t) : M unit :=
  λ w, (Ok tt, {| dfs := dfs w; clients := update (clients w) self m |}).

Notation "'let!' x ':=' m 'in' k" := (bind m (λ x, k))
  (at level 10, x name, m at level 100, k at level 200).
Notation "'do!' m 'in' k" := (bind m (λ _, k))
  (at level 10, m at level 100, k at level 200).

Definition RuntimeError_cannot_read (client_name file_name : string) : exn :=
  RuntimeError ("[CLIENT " +:+ client_name +:+ "] Cannot read " +:+ file_name
                +:+ " from any server").

(** The second half of [read_file], taken when the cache cannot answer:
    fetch from the nearest replica, replace the cache entry, subscribe at the
    primary. *)
Definition refresh (self : nat) (file_name : string) (primary : DataCenter) : M string :=
  let! w := get in
  let! replica_file :=
    lift (DistributedFileSystem.read_file (dfs w) file_name
            (preferred_dc (clients w self))) in
  match replica_file with
  | None => raise (RuntimeError_cannot_read (name (clients w self)) file_name)
  | Some rf =>
      do! modify_self self (λ c,
            set_cache c
              (<[file_name := CacheEntry.new (FileVersion.content rf)
                                (FileVersion.version rf)]> (cache c))) in
      do! modify_dfs (λ d,
            DistributedFileSystem.update_at d primary (λ s,
              Server.register_cache_listener s file_name
                (invalidate_cache_entry_of self))) in
      ret (FileVersion.content rf)
  end.

Definition read_file (self : nat) (file_name : string) : M string :=
  let! w := get in
  let! primary := lift (DistributedFileSystem.get_primary_server (dfs w) file_name) in
  let primary_version := DistributedFileSystem.read_file_at (dfs w) primary file_name in
  let primary_version_number :=
    match primary_version with
    | Some fv => FileVersion.version fv
    | None => 0
    end in
  let entry := cache (clients w self) !! file_name in
  match entry with
  | Some e =>
      if CacheEntry.valid e && bool_decide (CacheEntry.version e = primary_version_number)
      then ret (CacheEntry.content e)
      else refresh self file_name primary
  | None => refresh self file_name primary
  end.

(** The coordinator's write, run on the world. *)
Definition write_file_with_quorum (file_name new_content : string) : M bool :=
  λ w,
    let '(r, d, h) :=
      DistributedFileSystem.write_file_with_quorum call (dfs w) file_name
        new_content (clients w) in
    (r, {| dfs := d; clients := h |}).

Definition write_file (self : nat) (file_name new_content : string) : M unit :=
  let! success := write_file_with_quorum file_name new_content in
  if negb success then ret tt
  else
    let! w := get in
    let! primary := lift (DistributedFileSystem.get_primary_server (dfs w) file_name) in
    let fv := DistributedFileSystem.read_file_at (dfs w) primary file_name in
    match fv with
    | None => ret tt
    | Some fv =>
        modify_self self (λ c,
          set_cache c
            (<[file_name := CacheEntry.new (FileVersion.content fv)
                              (FileVersion.version fv)]> (cache c)))
    end.

End Client.

(** ** main.py: the bootstrap of the demo *)

Definition store_initial_files (s : Server.t) : Server.t :=
  let s1 := Server.store_initial_file s "file1.txt" "Initial content of file1" 1 in
  let s2 := Server.store_initial_file s1 "file2.txt" "Initial content of file2" 1 in
  Server.store_initial_file s2 "file3.txt" "Initial content of file3" 1.

Definition build_system : DistributedFileSystem.t :=
  let ny := store_initial_files (Server.new NEW_YORK) in
  let to := store_initial_files (Server.new TORONTO) in
  let ld := store_initial_files (Server.new LONDON) in
  let servers := [ny; to; ld] in
  let primary_table : gmap string DataCenter :=
    <["file1.txt" := NEW_YORK]>
      (<["file2.txt" := TORONTO]> (<["file3.txt" := LONDON]> ∅)) in
  DistributedFileSystem.new servers primary_table.

(** Client 0 is [alice], every other client is a [bob]. *)
Definition main_clients : Client.Heap :=
  λ i, match i with
       | O => Client.new "Alice" NEW_YORK
       | _ => Client.new "Bob" LONDON
       end.

Definition main_world : Client.World :=
  {| Client.dfs := build_system; Client.clients := main_clients |}.

(** [main()]: the answers of the five reads of the demo, in order. *)
Definition main : Client.M (list string) :=
  let alice := 0%nat in
  let bob := 1%nat in
  Client.bind (Client.read_file alice "file1.txt") (λ a1,
  Client.bind (Client.read_file bob "file1.txt") (λ b1,
  Client.bind (Client.write_file alice "file1.txt" "Updated by Alice at New York") (λ _,
  Client.bind (Client.read_file bob "file1.txt") (λ b2,
  Client.bind (Client.modify_dfs (λ d,
                 DistributedFileSystem.update_at d LONDON Server.bring_down)) (λ _,
  Client.bind (Client.write_file alice "file1.txt"
                 "Second update while London is down") (λ _,
  Client.bind (Client.read_file bob "file1.txt") (λ b3,
  Client.bind (Client.modify_dfs (λ d,
                 DistributedFileSystem.update_at d LONDON Server.bring_up)) (λ _,
  Client.bind (Client.read_file bob "file1.txt") (λ b4,
  Client.ret [a1; b1; b2; b3; b4]))))))))).

(** ** Vocabulary of the properties *)

(** [fv.version if fv else 0] *)
Definition version_of (o : option FileVersion.t) : Z :=
  match o with
  | Some fv => FileVersion.version fv
  | None => 0
  end.

(** What the replica referenced by [r] stores for [f], whether or not it is
    available. *)
Definition stored (d : DistributedFileSystem.t) (r : DataCenter) (f : string)
  : option FileVersion.t :=
  match DistributedFileSystem.server_at d r with
  | Some s => Server.files s !! f
  | None => None
  end.

Definition stored_version (d : DistributedFileSystem.t) (r : DataCenter) (f : string) : Z :=
  version_of (stored d r f).

Definition stored_pair (d : DistributedFileSystem.t) (r : DataCenter) (f : string)
  : option (string * Z) :=
  (λ fv, (FileVersion.content fv, FileVersion.version fv)) <$> stored d r f.

Definition quorum_size (d : DistributedFileSystem.t) : nat :=
  length (filter (λ s, DistributedFileSystem.is_available_at d s = true)
            (DistributedFileSystem.get_all_servers d)).

(** The write every replica performs on itself when it is reached. *)
Definition commit (f c : string) (v : Z) (s : Server.t) : Server.t :=
  Server.apply_update s f c v.

(** Administrative toggles, as [main.py] performs them on a server taken
    from [servers_by_dc]. *)
Definition set_available (r : DataCenter) (b : bool) (w : Client.World) : Client.World :=
  {| Client.dfs :=
       DistributedFileSystem.update_at (Client.dfs w) r
         (if b then Server.bring_up else Server.bring_down);
     Client.clients := Client.clients w |}.

Definition toggles (ts : list (DataCenter * bool)) (w : Client.World) : Client.World :=
  foldl (λ w' t, set_available t.1 t.2 w') w ts.

(** Runs of the system: coordinator writes and availability toggles. *)
Inductive Op : Type :=
  | Write (file_name new_content : string)
  | BringDown (r : DataCenter)
  | BringUp (r : DataCenter).

Definition step (w : Client.World) (op : Op) : Client.World :=
  match op with
  | Write f c => (Client.write_file_with_quorum f c w).2
  | BringDown r => set_available r false w
  | BringUp r => set_available r true w
  end.

Definition run (ops : list Op) (w : Client.World) : Client.World := foldl step w ops.

(** No replica stores [f] at a higher version than the primary of [f]. *)
Definition no_replica_ahead (d : DistributedFileSystem.t) (f : string) : Prop :=
  ∀ p r, DistributedFileSystem.primary_table d !! f = Some p →
         stored_version d r f ≤ stored_version d p f.

(** The primary of [f], when [get_primary_server] finds one, is available. *)
Definition primary_up (d : DistributedFileSystem.t) (f : string) : Prop :=
  ∀ p, DistributedFileSystem.get_primary_server d f = Ok p →
       DistributedFileSystem.is_available_at d p = true.

(** No replica is down. *)
Definition all_up (d : DistributedFileSystem.t) : Prop :=
  ∀ r s, DistributedFileSystem.server_at d r = Some s → Server.is_available s = true.

Definition is_write (op : Op) : Prop :=
  match op with
  | Write _ _ => True
  | _ => False
  end.

(** Along the run, the primary of [f] is available whenever [f] is written. *)
Fixpoint primary_up_when_written (f : string) (ops : list Op) (w : Client.World) : Prop :=
  match ops with
  | [] => True
  | op :: ops' =>
      match op with
      | Write g _ => g = f → primary_up (Client.dfs w) f
      | _ => True
      end
      ∧ primary_up_when_written f ops' (step w op)
  end.

(** The subscribers for [f] at the replica referenced by [r]. *)
Definition listeners_at (d : DistributedFileSystem.t) (r : DataCenter) (f : string)
  : list Callback :=
  match DistributedFileSystem.server_at d r with
  | Some s => Server.listeners_of s f
  | None => []
  end.

(** Client [a] is subscribed for [f] at the replica referenced by [r]. *)
Definition subscribed (d : DistributedFileSystem.t) (r : DataCenter) (f : string) (a : nat)
  : Prop :=
  invalidate_cache_entry_of a ∈ listeners_at d r f.

(** How often a sequence of calls invokes [h]. *)
Definition invocations (h : Callback) (calls : list (Callback * string)) : nat :=
  length (filter (λ c, c.1 = h) calls).

(** ** The properties, as predicates on a system state *)

(** A successful coordinator write moves the primary one version up and
    leaves every replica that was available level with the primary. *)
Definition write_commits (d : DistributedFileSystem.t) (f c : string) : Prop :=
  ∀ (h : Client.Heap) d' h' p,
    DistributedFileSystem.write_file_with_quorum Client.call d f c h = (Ok true, d', h') →
    DistributedFileSystem.primary_table d !! f = Some p →
    stored_version d' p f = stored_version d p f + 1
    ∧ ∀ r, DistributedFileSystem.is_available_at d r = true →
           stored_pair d' r f = stored_pair d' p f.

(** Below quorum the coordinator write returns [False] and changes nothing. *)
Definition quorum_gate (d : DistributedFileSystem.t) (f c : string) : Prop :=
  ∀ h : Client.Heap,
    (quorum_size d < 2)%nat →
    DistributedFileSystem.write_file_with_quorum Client.call d f c h = (Ok false, d, h).

(** Along the run [ops] from [w], no replica's version of [f] decreases. *)
Definition never_decreases (w : Client.World) (ops : list Op) (f : string) : Prop :=
  ∀ ops1 ops2 r,
    ops = ops1 ++ ops2 →
    stored_version (Client.dfs (run ops1 w)) r f
    ≤ stored_version (Client.dfs (run ops w)) r f.

(** Every step of the run leaves a replica's version of [f] alone or sets it
    to the primary's previous version plus one. *)
Definition steps_through_primary (w : Client.World) (ops : list Op) (f : string) : Prop :=
  ∀ ops1 op ops2 p r,
    ops = ops1 ++ op :: ops2 →
    DistributedFileSystem.primary_table (Client.dfs w) !! f = Some p →
    let d := Client.dfs (run ops1 w) in
    let d' := Client.dfs (step (run ops1 w) op) in
    stored_version d' r f = stored_version d r f
    ∨ stored_version d' r f = stored_version d p f + 1.

(** A reads, replicas are toggled, B writes, replicas are toggled, A reads
    again: the states in between. *)
Definition after_first_read (w0 : Client.World) (A : nat) (f : string)
    (T1 : list (DataCenter * bool)) : Client.World :=
  toggles T1 (Client.read_file A f w0).2.

Definition after_write (w0 : Client.World) (A B : nat) (f c : string)
    (T1 T2 : list (DataCenter * bool)) : Client.World :=
  toggles T2 (Client.write_file B f c (after_first_read w0 A f T1)).2.

Definition cache_coherent (w0 : Client.World) (A B : nat) (f c : string)
    (T1 T2 : list (DataCenter * bool)) : Prop :=
  ∀ x p,
    (Client.read_file A f w0).1 = Ok x →
    DistributedFileSystem.primary_table (Client.dfs w0) !! f = Some p →
    subscribed (Client.dfs (Client.read_file A f w0).2) p f A →
    (Client.write_file_with_quorum f c (after_first_read w0 A f T1)).1 = Ok true →
    (Client.read_file A f (after_write w0 A B f c T1 T2)).1 = Ok c.

(** The replica that serves A's second read was available during the write. *)
Definition served_by_written_replica (w0 : Client.World) (A B : nat) (f c : string)
    (T1 T2 : list (DataCenter * bool)) : Prop :=
  let w2 := after_write w0 A B f c T1 T2 in
  ∃ r,
    DistributedFileSystem.get_best_server_for_read (Client.dfs w2)
      (Client.preferred_dc (Client.clients w2 A)) = Some r
    ∧ DistributedFileSystem.is_available_at
        (Client.dfs (after_first_read w0 A f T1)) r = true.

(** The writer's cache after [write_file]. *)
Definition writer_cache_spec (w : Client.World) (self : nat) (f c : string) : Prop :=
  let ok := (Client.write_file_with_quorum f c w).1 in
  let w' := (Client.write_file self f c w).2 in
  (ok ≠ Ok true → Client.clients w' self = Client.clients w self)
  ∧ (ok = Ok true →
     ∀ p, DistributedFileSystem.primary_table (Client.dfs w) !! f = Some p →
          Client.cache (Client.clients w' self) !! f
          = (λ fv, CacheEntry.new (FileVersion.content fv) (FileVersion.version fv))
              <$> stored (Client.dfs w') p f)
  ∧ (ok = Ok true → (Client.read_file self f w').1 = Ok c).

(** [get_primary_server] fails exactly on files without a primary. *)
Definition primary_lookup_spec (d : DistributedFileSystem.t) (f : string) : Prop :=
  ((∃ e, DistributedFileSystem.get_primary_server d f = Raise e)
   ↔ DistributedFileSystem.primary_table d !! f = None)
  ∧ ∀ site, DistributedFileSystem.primary_table d !! f = Some site →
            DistributedFileSystem.get_primary_server d f = Ok site
            ∧ is_Some (DistributedFileSystem.server_at d site).

(** ** States used as examples *)

(** [file1.txt] written once, then its primary taken down. *)
Definition primary_down_world : Client.World :=
  run [Write "file1.txt" "Updated by Alice at New York"; BringDown NEW_YORK] main_world.

Definition all_down_world : Client.World :=
  run [BringDown NEW_YORK; BringDown TORONTO; BringDown LONDON] main_world.

(** A bootstrap that loads Toronto ahead of the primary. *)
Definition skewed_system : DistributedFileSystem.t :=
  let ny := Server.store_initial_file (Server.new NEW_YORK) "file1.txt" "X" 1 in
  let to := Server.store_initial_file (Server.new TORONTO) "file1.txt" "X" 5 in
  let ld := Server.store_initial_file (Server.new LONDON) "file1.txt" "X" 1 in
  DistributedFileSystem.new [ny; to; ld] {["file1.txt" := NEW_YORK]}.

Definition skewed_world : Client.World :=
  {| Client.dfs := skewed_system; Client.clients := main_clients |}.

(** A coordinator whose only replica is New York, with a file assigned to
    Toronto. *)
Definition lone_system : DistributedFileSystem.t :=
  DistributedFileSystem.new [Server.new NEW_YORK] {["file1.txt" := TORONTO]}.

(** ** Runs of client operations *)

(** What a client, or an administrator, can do to the system. *)
Inductive Action : Type :=
  | ARead (client : nat) (file_name : string)
  | AWrite (client : nat) (file_name new_content : string)
  | ASetAvailable (r : DataCenter) (b : bool).

Definition act (w : Client.World) (a : Action) : Client.World :=
  match a with
  | ARead A f => (Client.read_file A f w).2
  | AWrite A f c => (Client.write_file A f c w).2
  | ASetAvailable r b => set_available r b w
  end.

Definition acts (l : list Action) (w : Client.World) : Client.World := foldl act w l.

(** A client is subscribed for a file only at the primary of that file. *)
Definition subscriptions_at_primaries (d : DistributedFileSystem.t) : Prop :=
  ∀ r f a, subscribed d r f a →
           DistributedFileSystem.primary_table d !! f = Some r.

(** No subscriber list holds a callback twice. *)
Definition listeners_distinct (d : DistributedFileSystem.t) : Prop :=
  ∀ r f, NoDup (listeners_at d r f).

(** The three things a coordinator write of [f] depends on: whether it
    commits, the version it hands out, and whom it notifies. *)
Definition commits (d : DistributedFileSystem.t) (f : string) : bool :=
  match DistributedFileSystem.get_primary_server d f with
  | Ok _ => negb (quorum_size d <? 2)%nat
  | Raise _ => false
  end.

Definition next_version (d : DistributedFileSystem.t) (f : string) : Z :=
  match DistributedFileSystem.get_primary_server d f with
  | Ok p => version_of (DistributedFileSystem.read_file_at d p f) + 1
  | Raise _ => 0
  end.

Definition notified (d : DistributedFileSystem.t) (f : string) : list Callback :=
  match DistributedFileSystem.get_primary_server d f with
  | Ok p => listeners_at d p f
  | Raise _ => []
  end.

(** * Proofs *)

(** ** The demo *)

Example main_answers :
  (main main_world).1
  = Ok ["Initial content of file1"; "Initial content of file1";
        "Updated by Alice at New York"; "Second update while London is down";
        "Second update while London is down"].
Proof. reflexivity. Qed.

Example main_replicas :
  let d := Client.dfs (main main_world).2 in
  stored_pair d NEW_YORK "file1.txt" = Some ("Second update while London is down", 3)
  ∧ stored_pair d TORONTO "file1.txt" = Some ("Second update while London is down", 3)
  ∧ stored_pair d LONDON "file1.txt" = Some ("Updated by Alice at New York", 2)
  ∧ listeners_at d NEW_YORK "file1.txt"
    = [invalidate_cache_entry_of 0; invalidate_cache_entry_of 1].
Proof. repeat split; reflexivity. Qed.

(** ** Dictionaries *)

Section dict_facts.
Context {K V : Type} `{EqDecision K}.
Implicit Types (d : list (K * V)) (k : K) (f : V → V).

Lemma dict_keys_alter f k d : dict_keys (dict_alter f k d) = dict_keys d.
Proof.
  induction d as [|[k' v] d IH]; simpl; [done|].
  destruct (decide (k' = k)); simpl; [done|]. by rewrite <- IH.
Qed.

Lemma dict_get_alter f k d k' :
  dict_get (dict_alter f k d) k'
  = if decide (k = k') then f <$> dict_get d k' else dict_get d k'.
Proof.
  induction d as [|[k0 v] d IH]; simpl.
  - by destruct (decide (k = k')).
  - destruct (decide (k0 = k)) as [->|Hk0]; simpl.
    + destruct (decide (k = k')); simpl; done.
    + destruct (decide (k0 = k')) as [->|]; simpl.
      * by destruct (decide (k = k')); [congruence|].
      * apply IH.
Qed.

Lemma dict_alter_id f k d :
  (∀ v, dict_get d k = Some v → f v = v) → dict_alter f k d = d.
Proof.
  induction d as [|[k0 v] d IH]; simpl; [done|]. intros Hf.
  destruct (decide (k0 = k)).
  - by rewrite Hf.
  - by rewrite IH.
Qed.

Lemma dict_get_None d k : dict_get d k = None ↔ k ∉ dict_keys d.
Proof.
  induction d as [|[k0 v] d IH]; simpl.
  - split; [intros _; apply not_elem_of_nil | done].
  - rewrite not_elem_of_cons. destruct (decide (k0 = k)); intuition (eauto; congruence).
Qed.

Lemma dict_get_is_Some d k : is_Some (dict_get d k) ↔ k ∈ dict_keys d.
Proof.
  rewrite <- not_eq_None_Some, dict_get_None.
  destruct (decide (k ∈ dict_keys d)); intuition (eauto; congruence).
Qed.

Lemma dict_keys_set d k v :
  dict_keys (dict_set d k v)
  = if decide (k ∈ dict_keys d) then dict_keys d else dict_keys d ++ [k].
Proof.
  induction d as [|[k0 v0] d IH]; simpl.
  - destruct (decide (k ∈ [])) as [Hin|]; [by apply elem_of_nil in Hin | done].
  - destruct (decide (k0 = k)) as [->|Hne]; simpl.
    + by rewrite decide_True by left.
    + rewrite IH. destruct (decide (k ∈ dict_keys d)) as [Hin|Hin].
      * by rewrite decide_True by (by right).
      * rewrite decide_False; [done|]. rewrite elem_of_cons. intuition (eauto; congruence).
Qed.

Lemma dict_set_NoDup d k v : NoDup (dict_keys d) → NoDup (dict_keys (dict_set d k v)).
Proof.
  intros Hd. rewrite dict_keys_set. destruct (decide (k ∈ dict_keys d)); [done|].
  apply NoDup_app. split; [done|]. split; [|apply NoDup_singleton].
  intros x Hx Hx'. apply list_elem_of_singleton in Hx'. by subst.
Qed.

(** The dict's values are pairwise distinct objects: with unique keys an
    entry is found under its key. *)
Lemma dict_get_entry d k v :
  NoDup (dict_keys d) → (k, v) ∈ d → dict_get d k = Some v.
Proof.
  induction d as [|[k0 v0] d IH]; simpl; intros Hnd Hin.
  - by apply elem_of_nil in Hin.
  - apply NoDup_cons in Hnd as [Hk0 Hnd]. apply elem_of_cons in Hin as [Heq|Hin].
    + inversion Heq; subst. by rewrite decide_True.
    + destruct (decide (k0 = k)) as [->|]; [|by apply IH].
      exfalso. apply Hk0. unfold dict_keys.
      apply list_elem_of_fmap. by exists (k, v).
Qed.
End dict_facts.

(** ** Servers *)

Lemma apply_update_unavailable s f c v :
  Server.alive s = false → Server.apply_update s f c v = s.
Proof. intros Hs. unfold Server.apply_update, Server.is_available. by rewrite Hs. Qed.

Lemma apply_update_alive s f c v :
  Server.alive (Server.apply_update s f c v) = Server.alive s.
Proof.
  unfold Server.apply_update, Server.is_available.
  destruct (Server.alive s) eqn:Hs; simpl; [|done].
  by destruct (Server.files s !! f).
Qed.

Lemma apply_update_listeners s f c v :
  Server._cache_listeners (Server.apply_update s f c v) = Server._cache_listeners s.
Proof.
  unfold Server.apply_update.
  destruct (negb (Server.is_available s)); [done|].
  by destruct (Server.files s !! f).
Qed.

Lemma apply_update_files s f c v g :
  Server.alive s = true →
  Server.files (Server.apply_update s f c v) !! g
  = if decide (f = g)
    then Some (FileVersion.new
                 (from_option FileVersion.name f (Server.files s !! f)) c v)
    else Server.files s !! g.
Proof.
  intros Hs. unfold Server.apply_update, Server.is_available. rewrite Hs. simpl.
  destruct (Server.files s !! f) as [fv|] eqn:Hf; simpl;
    destruct (decide (f = g)) as [->|Hne];
    by rewrite ?lookup_insert_eq, ?lookup_insert_ne.
Qed.

Lemma apply_update_idemp s f c v :
  Server.apply_update (Server.apply_update s f c v) f c v = Server.apply_update s f c v.
Proof.
  destruct (Server.alive s) eqn:Hs;
    [|by rewrite !(apply_update_unavailable s) by done].
  unfold Server.apply_update, Server.is_available. rewrite Hs. simpl.
  destruct (Server.files s !! f) as [fv|]; simpl; rewrite Hs; simpl;
    rewrite lookup_insert_eq; unfold Server.set_files; simpl.
  all: by rewrite insert_insert_eq.
Qed.

Lemma wf_new dc : Server.wf (Server.new dc).
Proof. intros f ls. simpl. by rewrite lookup_empty. Qed.

Lemma wf_set_alive s b : Server.wf s → Server.wf (Server.set_alive s b).
Proof. done. Qed.

Lemma wf_store_initial_file s f c v :
  Server.wf s → Server.wf (Server.store_initial_file s f c v).
Proof. done. Qed.

Lemma wf_apply_update s f c v : Server.wf s → Server.wf (Server.apply_update s f c v).
Proof. intros Hs g ls. rewrite apply_update_listeners. apply Hs. Qed.

(** What registering does to the subscriber lists. *)
Lemma register_listeners s f h g :
  Server.listeners_of (Server.register_cache_listener s f h) g
  = if decide (f = g)
    then if decide (h ∈ Server.listeners_of s f)
         then Server.listeners_of s f
         else Server.listeners_of s f ++ [h]
    else Server.listeners_of s g.
Proof.
  unfold Server.register_cache_listener, Server.listeners_of, setdefault.
  destruct (Server._cache_listeners s !! f) as [ls|] eqn:Hf; simpl.
  - destruct (decide (h ∈ ls)) as [Hin|Hin].
    + rewrite bool_decide_eq_true_2 by done. simpl.
      destruct (decide (f = g)) as [<-|]; [by rewrite Hf | done].
    + rewrite bool_decide_eq_false_2 by done. simpl.
      destruct (decide (f = g)) as [<-|].
      * by rewrite lookup_insert_eq.
      * by rewrite lookup_insert_ne.
  - destruct (decide (f = g)) as [<-|].
    + by rewrite lookup_insert_eq.
    + by rewrite lookup_insert_ne, lookup_insert_ne.
Qed.

Lemma register_listed s f h : h ∈ Server.listeners_of (Server.register_cache_listener s f h) f.
Proof.
  rewrite register_listeners, decide_True by done.
  destruct (decide (h ∈ Server.listeners_of s f)); [done|].
  apply elem_of_app. right. by apply list_elem_of_singleton.
Qed.

Lemma register_files s f h :
  Server.files (Server.register_cache_listener s f h) = Server.files s
  ∧ Server.alive (Server.register_cache_listener s f h) = Server.alive s.
Proof.
  unfold Server.register_cache_listener.
  destruct (setdefault _ _ _) as [ls d]. by destruct (bool_decide _).
Qed.

Lemma wf_register s f h : Server.wf s → Server.wf (Server.register_cache_listener s f h).
Proof.
  intros Hs g ls. unfold Server.register_cache_listener, setdefault.
  destruct (Server._cache_listeners s !! f) as [l0|] eqn:Hf; simpl.
  - destruct (decide (h ∈ l0)) as [Hin|Hin].
    + rewrite bool_decide_eq_true_2 by done. apply Hs.
    + rewrite bool_decide_eq_false_2 by done. simpl.
      destruct (decide (f = g)) as [<-|].
      * rewrite lookup_insert_eq. intros [= <-].
        apply NoDup_app. split; [by eapply Hs|]. split; [|apply NoDup_singleton].
        intros x Hx Hx'. apply list_elem_of_singleton in Hx'. by subst.
      * rewrite lookup_insert_ne by done. apply Hs.
  - destruct (decide (f = g)) as [<-|].
    + rewrite lookup_insert_eq. intros [= <-]. apply NoDup_singleton.
    + rewrite !lookup_insert_ne by done. apply Hs.
Qed.

(** Registering a subscriber that is already there changes nothing. *)
Lemma register_again s f h :
  h ∈ Server.listeners_of s f → Server.register_cache_listener s f h = s.
Proof.
  unfold Server.register_cache_listener, Server.listeners_of, setdefault.
  destruct (Server._cache_listeners s !! f) as [ls|] eqn:Hf; simpl.
  - intros Hin. rewrite bool_decide_eq_true_2 by done. by destruct s.
  - intros Hin. by apply elem_of_nil in Hin.
Qed.

(** ** The coordinator's store of servers *)

Lemma server_at_update_at d r m r' :
  DistributedFileSystem.server_at (DistributedFileSystem.update_at d r m) r'
  = if decide (r = r') then m <$> DistributedFileSystem.server_at d r'
    else DistributedFileSystem.server_at d r'.
Proof. apply dict_get_alter. Qed.

Lemma get_all_servers_update_at d r m :
  DistributedFileSystem.get_all_servers (DistributedFileSystem.update_at d r m)
  = DistributedFileSystem.get_all_servers d.
Proof. apply dict_keys_alter. Qed.

Lemma update_at_id d r m :
  (∀ s, DistributedFileSystem.server_at d r = Some s → m s = s) →
  DistributedFileSystem.update_at d r m = d.
Proof.
  intros Hm. destruct d as [ss tb]. unfold DistributedFileSystem.update_at. simpl.
  f_equal. by apply dict_alter_id.
Qed.

Lemma server_at_listed d r s :
  DistributedFileSystem.server_at d r = Some s →
  r ∈ DistributedFileSystem.get_all_servers d.
Proof. intros Hs. apply dict_get_is_Some. by exists s. Qed.

Lemma new_wf servers table :
  DistributedFileSystem.wf (DistributedFileSystem.new servers table).
Proof.
  unfold DistributedFileSystem.wf, DistributedFileSystem.new. simpl.
  assert (Hgen : ∀ d : list (DataCenter * Server.t),
    NoDup (dict_keys d) ∧ Forall (λ e, e.1 = Server.dc e.2) d →
    NoDup (dict_keys (foldl (λ d s, dict_set d (Server.dc s) s) d servers))
    ∧ Forall (λ e, e.1 = Server.dc e.2)
        (foldl (λ d s, dict_set d (Server.dc s) s) d servers)).
  { induction servers as [|s servers IH]; intros d [Hnd Hdc]; [done|].
    simpl. apply IH. split; [by apply dict_set_NoDup|].
    clear IH Hnd. induction d as [|[k v] d IHd]; simpl.
    - by apply Forall_singleton.
    - apply Forall_cons in Hdc as [Hk Hdc].
      destruct (decide (k = Server.dc s)) as [->|Hne];
        apply Forall_cons; split; auto. }
  apply Hgen. split; [apply NoDup_nil_2 | apply Forall_nil_2].
Qed.

Lemma is_available_at_true d r :
  DistributedFileSystem.is_available_at d r = true
  ↔ ∃ s, DistributedFileSystem.server_at d r = Some s ∧ Server.alive s = true.
Proof.
  unfold DistributedFileSystem.is_available_at, Server.is_available.
  destruct (DistributedFileSystem.server_at d r) as [s|].
  - split; [intros Hs; by exists s | by intros (s0 & [= <-] & Hs)].
  - split; [done | by intros (s0 & Hs & _)].
Qed.

(** One round of the replication loop: the availability test is subsumed by
    the one [apply_update] makes itself. *)
Lemma push_step d r p f c v :
  (if bool_decide (r ≠ p) && DistributedFileSystem.is_available_at d r
   then DistributedFileSystem.update_at d r (commit f c v)
   else d)
  = if decide (r = p) then d else DistributedFileSystem.update_at d r (commit f c v).
Proof.
  destruct (decide (r = p)) as [->|Hne].
  - by rewrite bool_decide_eq_false_2 by intuition (eauto; congruence).
  - rewrite bool_decide_eq_true_2 by done. simpl.
    destruct (DistributedFileSystem.is_available_at d r) eqn:Hav; [done|].
    symmetry. apply update_at_id. intros s Hs. apply apply_update_unavailable.
    unfold DistributedFileSystem.is_available_at in Hav. by rewrite Hs in Hav.
Qed.

Lemma push_fold l d p f c v :
  let step := λ d' replica,
    if bool_decide (replica ≠ p) && DistributedFileSystem.is_available_at d' replica
    then DistributedFileSystem.update_at d' replica
           (λ s, Server.apply_update s f c v)
    else d' in
  DistributedFileSystem.get_all_servers (foldl step d l)
  = DistributedFileSystem.get_all_servers d
  ∧ DistributedFileSystem.primary_table (foldl step d l)
    = DistributedFileSystem.primary_table d
  ∧ ∀ r, DistributedFileSystem.server_at (foldl step d l) r
         = if decide (r ≠ p ∧ r ∈ l)
           then commit f c v <$> DistributedFileSystem.server_at d r
           else DistributedFileSystem.server_at d r.
Proof.
  intros step. revert d. induction l as [|a l IH]; intros d; simpl.
  - split; [done|]. split; [done|]. intros r.
    rewrite decide_False; [done|]. intros [_ Hin]. by apply elem_of_nil in Hin.
  - assert (Hstep : step d a
      = if decide (a = p) then d
        else DistributedFileSystem.update_at d a (commit f c v))
      by apply push_step.
    destruct (IH (step d a)) as (Hk & Ht & Hs). rewrite Hk, Ht.
    destruct (decide (a = p)) as [->|Hap]; rewrite Hstep in Hs |- *.
    + split; [done|]. split; [done|]. intros r. rewrite Hs.
      destruct (decide (r ≠ p ∧ r ∈ l)) as [[? ?]|Hn].
      * by rewrite decide_True by (split; [done | by right]).
      * rewrite decide_False; [done|]. intros [Hrp Hin].
        apply elem_of_cons in Hin as [->|Hin]; [done|]. by apply Hn.
    + split; [apply get_all_servers_update_at|]. split; [done|].
      intros r. rewrite Hs. rewrite server_at_update_at.
      destruct (decide (a = r)) as [->|Har].
      * rewrite (decide_True (P := r ≠ p ∧ r ∈ r :: l)) by (split; [done | by left]).
        destruct (decide (r ≠ p ∧ r ∈ l)); [|done].
        destruct (DistributedFileSystem.server_at d r) as [s|]; [|done]. simpl.
        unfold commit. by rewrite apply_update_idemp.
      * destruct (decide (r ≠ p ∧ r ∈ l)) as [[? ?]|Hn].
        -- by rewrite decide_True by (split; [done | by right]).
        -- rewrite decide_False; [done|]. intros [Hrp Hin].
           apply elem_of_cons in Hin as [->|Hin]; [done|]. by apply Hn.
Qed.

Lemma push_to_replicas_spec d p f c v :
  let d' := DistributedFileSystem.push_to_replicas d p f c v in
  DistributedFileSystem.get_all_servers d' = DistributedFileSystem.get_all_servers d
  ∧ DistributedFileSystem.primary_table d' = DistributedFileSystem.primary_table d
  ∧ ∀ r, DistributedFileSystem.server_at d' r
         = if decide (r = p) then DistributedFileSystem.server_at d r
           else commit f c v <$> DistributedFileSystem.server_at d r.
Proof.
  unfold DistributedFileSystem.push_to_replicas.
  destruct (push_fold (DistributedFileSystem.get_all_servers d) d p f c v)
    as (Hk & Ht & Hs).
  split; [done|]. split; [done|]. intros r. rewrite Hs.
  destruct (decide (r = p)) as [->|Hrp].
  - rewrite decide_False; [done|]. by intros [? _].
  - destruct (DistributedFileSystem.server_at d r) as [s|] eqn:Hr.
    + rewrite decide_True; [done|]. split; [done|]. by eapply server_at_listed.
    + by destruct (decide _).
Qed.

(** ** Invalidation pushes *)

Lemma invalidate_cache_entry_idemp c f :
  Client.invalidate_cache_entry (Client.invalidate_cache_entry c f) f
  = Client.invalidate_cache_entry c f.
Proof.
  unfold Client.invalidate_cache_entry.
  destruct (Client.cache c !! f) as [e|] eqn:He; simpl; [|by rewrite He].
  rewrite lookup_insert_eq. unfold Client.set_cache. simpl.
  by rewrite insert_insert_eq.
Qed.

Lemma invalidate_cache_entry_lookup c f g :
  Client.cache (Client.invalidate_cache_entry c f) !! g
  = if decide (f = g)
    then (λ e, CacheEntry.set_valid e false) <$> Client.cache c !! g
    else Client.cache c !! g.
Proof.
  unfold Client.invalidate_cache_entry.
  destruct (decide (f = g)) as [<-|Hne].
  - destruct (Client.cache c !! f) as [e|] eqn:He; simpl; [|by rewrite He].
    by rewrite lookup_insert_eq.
  - destruct (Client.cache c !! f) as [e|] eqn:He; simpl; [|done].
    by rewrite lookup_insert_ne.
Qed.

Lemma invalidate_cache_entry_attrs c f :
  Client.name (Client.invalidate_cache_entry c f) = Client.name c
  ∧ Client.preferred_dc (Client.invalidate_cache_entry c f) = Client.preferred_dc c.
Proof.
  unfold Client.invalidate_cache_entry. by destruct (Client.cache c !! f).
Qed.

(** A push reaches exactly the subscribed clients. *)
Lemma run_calls_push ls f (h : Client.Heap) a :
  DistributedFileSystem.run_calls Client.call (map (λ cb, (cb, f)) ls) h a
  = if decide (invalidate_cache_entry_of a ∈ ls)
    then Client.invalidate_cache_entry (h a) f
    else h a.
Proof.
  unfold DistributedFileSystem.run_calls. revert h.
  induction ls as [|[b] ls IH]; intros h; simpl.
  - done.
  - rewrite IH. unfold Client.update.
    destruct (decide (a = b)) as [->|Hab].
    + rewrite (decide_True (P := _ ∈ _ :: ls)) by left.
      destruct (decide (_ ∈ ls)); [|done]. apply invalidate_cache_entry_idemp.
    + destruct (decide (invalidate_cache_entry_of a ∈ ls)) as [Hin|Hin].
      * by rewrite decide_True by (by right).
      * rewrite decide_False; [done|]. intros Hin'.
        apply elem_of_cons in Hin' as [[= ->]|?]; done.
Qed.

(** ** The quorum write *)

Lemma get_primary_server_Ok d f p :
  DistributedFileSystem.get_primary_server d f = Ok p
  ↔ DistributedFileSystem.primary_table d !! f = Some p
    ∧ is_Some (DistributedFileSystem.server_at d p).
Proof.
  unfold DistributedFileSystem.get_primary_server, DistributedFileSystem.server_at.
  destruct (DistributedFileSystem.primary_table d !! f) as [q|]; [|intuition (eauto; congruence)].
  destruct (dict_get (DistributedFileSystem.servers_by_dc d) q) as [s|] eqn:Hq.
  - split; [intros [= <-]; by eauto | by intros [[= <-] _]].
  - split; [done|]. intros [[= <-] [s Hs]]. congruence.
Qed.

Lemma get_primary_server_Raise d f e :
  DistributedFileSystem.get_primary_server d f = Raise e
  ↔ e = KeyError
    ∧ (DistributedFileSystem.primary_table d !! f = None
       ∨ ∃ p, DistributedFileSystem.primary_table d !! f = Some p
              ∧ DistributedFileSystem.server_at d p = None).
Proof.
  unfold DistributedFileSystem.get_primary_server, DistributedFileSystem.server_at.
  destruct (DistributedFileSystem.primary_table d !! f) as [q|].
  - destruct (dict_get (DistributedFileSystem.servers_by_dc d) q) as [s|] eqn:Hq.
    + split; [done|]. intros [_ [?|(p & [= <-] & ?)]]; congruence.
    + split; [intros [= <-]; by eauto | by intros [-> _]].
  - split; [intros [= <-]; by eauto | by intros [-> _]].
Qed.

Lemma write_raises d f c (h : Client.Heap) e :
  DistributedFileSystem.get_primary_server d f = Raise e →
  DistributedFileSystem.write_file_with_quorum Client.call d f c h = (Raise e, d, h).
Proof. intros He. unfold DistributedFileSystem.write_file_with_quorum. by rewrite He. Qed.

Lemma write_below_quorum d f c (h : Client.Heap) p :
  DistributedFileSystem.get_primary_server d f = Ok p →
  (quorum_size d < 2)%nat →
  DistributedFileSystem.write_file_with_quorum Client.call d f c h = (Ok false, d, h).
Proof.
  intros Hp Hq. unfold DistributedFileSystem.write_file_with_quorum. rewrite Hp.
  fold (quorum_size d). by apply Nat.ltb_lt in Hq as ->.
Qed.

(** A committed write reaches every replica through [apply_update], which
    does nothing on an unavailable one, and pushes to the subscribers of the
    primary. *)
Lemma write_commit d f c (h : Client.Heap) p :
  DistributedFileSystem.get_primary_server d f = Ok p →
  (2 ≤ quorum_size d)%nat →
  ∃ d',
    DistributedFileSystem.write_file_with_quorum Client.call d f c h
    = (Ok true, d',
       DistributedFileSystem.run_calls Client.call
         (map (λ cb, (cb, f)) (listeners_at d p f)) h)
    ∧ DistributedFileSystem.get_all_servers d' = DistributedFileSystem.get_all_servers d
    ∧ DistributedFileSystem.primary_table d' = DistributedFileSystem.primary_table d
    ∧ ∀ r, DistributedFileSystem.server_at d' r
           = commit f c (version_of (DistributedFileSystem.read_file_at d p f) + 1)
               <$> DistributedFileSystem.server_at d r.
Proof.
  intros Hp Hq. unfold DistributedFileSystem.write_file_with_quorum. rewrite Hp.
  fold (quorum_size d). apply Nat.ltb_ge in Hq as ->.
  fold (version_of (DistributedFileSystem.read_file_at d p f)).
  set (v := version_of (DistributedFileSystem.read_file_at d p f) + 1).
  set (d1 := DistributedFileSystem.update_at d p _).
  destruct (push_to_replicas_spec d1 p f c v) as (Hk & Ht & Hs).
  set (d2 := DistributedFileSystem.push_to_replicas d1 p f c v) in *.
  assert (Hall : ∀ r, DistributedFileSystem.server_at d2 r
                      = commit f c v <$> DistributedFileSystem.server_at d r).
  { intros r. rewrite Hs. unfold d1. rewrite server_at_update_at.
    destruct (decide (r = p)) as [->|Hrp].
    - by rewrite decide_True.
    - by rewrite decide_False. }
  exists d2. split; [|split; [|split]]; [|by rewrite Hk; apply get_all_servers_update_at|done|done].
  do 2 f_equal. rewrite Hall. unfold listeners_at.
  destruct (DistributedFileSystem.server_at d p) as [s|]; [|done]. simpl.
  unfold Server.invalidate_caches, Server.listeners_of, commit.
  by rewrite apply_update_listeners.
Qed.

(** The three outcomes of a coordinator write. *)
Lemma write_cases d f c (h : Client.Heap) :
  (∃ e, DistributedFileSystem.get_primary_server d f = Raise e
        ∧ DistributedFileSystem.write_file_with_quorum Client.call d f c h
          = (Raise e, d, h))
  ∨ (∃ p, DistributedFileSystem.get_primary_server d f = Ok p
          ∧ (quorum_size d < 2)%nat
          ∧ DistributedFileSystem.write_file_with_quorum Client.call d f c h
            = (Ok false, d, h))
  ∨ (∃ p d',
       DistributedFileSystem.get_primary_server d f = Ok p
       ∧ (2 ≤ quorum_size d)%nat
       ∧ DistributedFileSystem.write_file_with_quorum Client.call d f c h
         = (Ok true, d',
            DistributedFileSystem.run_calls Client.call
              (map (λ cb, (cb, f)) (listeners_at d p f)) h)
       ∧ DistributedFileSystem.get_all_servers d'
         = DistributedFileSystem.get_all_servers d
       ∧ DistributedFileSystem.primary_table d'
         = DistributedFileSystem.primary_table d
       ∧ ∀ r, DistributedFileSystem.server_at d' r
              = commit f c (version_of (DistributedFileSystem.read_file_at d p f) + 1)
                  <$> DistributedFileSystem.server_at d r).
Proof.
  destruct (DistributedFileSystem.get_primary_server d f) as [p|e] eqn:Hp.
  - destruct (decide (quorum_size d < 2)%nat) as [Hq|Hq].
    + right. left. exists p. eauto using write_below_quorum.
    + right. right. destruct (write_commit d f c h p Hp) as (d' & ?); [lia|].
      exists p, d'. split; [done|]. split; [lia|]. done.
  - left. exists e. eauto using write_raises.
Qed.

(** What a replica stores after [apply_update]. *)
Lemma stored_commit (s : Server.t) f c v g :
  Server.files (commit f c v s) !! g
  = if decide (f = g ∧ Server.alive s = true)
    then Some (FileVersion.new
                 (from_option FileVersion.name f (Server.files s !! f)) c v)
    else Server.files s !! g.
Proof.
  unfold commit. destruct (Server.alive s) eqn:Hs.
  - rewrite apply_update_files by done.
    destruct (decide (f = g)); [by rewrite decide_True | by rewrite decide_False by intuition (eauto; congruence)].
  - rewrite apply_update_unavailable by done. by rewrite decide_False by intuition (eauto; congruence).
Qed.

(** ** Subscriptions (C5, C10) *)

Lemma invocations_absent h f ls :
  h ∉ ls → invocations h (map (λ cb, (cb, f)) ls) = 0%nat.
Proof.
  unfold invocations. induction ls as [|x ls IH]; intros Hin; [done|].
  apply not_elem_of_cons in Hin as [Hne Hin]. simpl.
  rewrite filter_cons_False by (simpl; congruence). by apply IH.
Qed.

Lemma invocations_NoDup h f ls :
  NoDup ls → h ∈ ls → invocations h (map (λ cb, (cb, f)) ls) = 1%nat.
Proof.
  induction 1 as [|x ls Hx Hnd IH]; intros Hin.
  - by apply elem_of_nil in Hin.
  - destruct (decide (x = h)) as [->|Hne].
    + unfold invocations. simpl. rewrite filter_cons_True by done. simpl.
      f_equal. by apply invocations_absent.
    + unfold invocations. simpl. rewrite filter_cons_False by done. apply IH.
      apply elem_of_cons in Hin as [->|Hin]; done.
Qed.

Lemma listeners_of_NoDup s f : Server.wf s → NoDup (Server.listeners_of s f).
Proof.
  intros Hs. unfold Server.listeners_of.
  destruct (Server._cache_listeners s !! f) as [ls|] eqn:Hf; simpl.
  - by eapply Hs.
  - apply NoDup_nil_2.
Qed.

Lemma reachable_wf s : Server.reachable s → Server.wf s.
Proof.
  induction 1;
    eauto using wf_new, wf_set_alive, wf_store_initial_file, wf_apply_update,
      wf_register.
Qed.

(** C5.  On every replica the code can build, subscribing a client callback
    [h] twice for [f] leaves the replica in the state one subscription
    produces, and a push for [f] then calls [h] exactly once. *)
Theorem subscribe_twice_once (s : Server.t) (f : string) (h : Callback) :
  Server.reachable s →
  let s1 := Server.register_cache_listener s f h in
  let s2 := Server.register_cache_listener s1 f h in
  s2 = s1 ∧ invocations h (Server.invalidate_caches s2 f) = 1%nat.
Proof.
  intros Hs%reachable_wf s1 s2.
  assert (Heq : s2 = s1) by apply register_again, register_listed.
  split; [done|]. rewrite Heq.
  apply (invocations_NoDup h f (Server.listeners_of s1 f)).
  - apply listeners_of_NoDup. by apply wf_register.
  - apply register_listed.
Qed.

Lemma subscribe_twice_once_witness :
  let s := Server.register_cache_listener (Server.new NEW_YORK) "file1.txt"
             (invalidate_cache_entry_of 0) in
  let s1 := Server.register_cache_listener s "file1.txt" (invalidate_cache_entry_of 1) in
  let s2 := Server.register_cache_listener s1 "file1.txt" (invalidate_cache_entry_of 1) in
  s2 = s1
  ∧ invocations (invalidate_cache_entry_of 1) (Server.invalidate_caches s2 "file1.txt")
    = 1%nat.
Proof.
  apply (subscribe_twice_once
           (Server.register_cache_listener (Server.new NEW_YORK) "file1.txt"
              (invalidate_cache_entry_of 0))
           "file1.txt" (invalidate_cache_entry_of 1)).
  apply Server.reach_register_cache_listener, Server.reach_new.
Defined.

(** C10.  On a replica that is down, subscribing still records the callback
    and a push still calls every subscriber, marking the subscribed clients'
    entries invalid, while [read_file] answers nothing and [apply_update]
    changes nothing. *)
Theorem listeners_ignore_availability
    (s : Server.t) (f c : string) (v : Z) (h : Callback) (heap : Client.Heap) :
  Server.is_available s = false →
  h ∈ Server.listeners_of (Server.register_cache_listener s f h) f
  ∧ (∀ cb, cb ∈ Server.listeners_of s f → (cb, f) ∈ Server.invalidate_caches s f)
  ∧ (∀ a e,
       invalidate_cache_entry_of a ∈ Server.listeners_of s f →
       Client.cache (heap a) !! f = Some e →
       Client.cache
         (DistributedFileSystem.run_calls Client.call
            (Server.invalidate_caches s f) heap a) !! f
       = Some (CacheEntry.set_valid e false))
  ∧ Server.read_file s f = None
  ∧ Server.apply_update s f c v = s.
Proof.
  intros Hs. split; [apply register_listed|]. split; [|split; [|split]].
  - intros cb Hcb. unfold Server.invalidate_caches.
    apply list_elem_of_fmap. by exists cb.
  - intros a e Ha He. unfold Server.invalidate_caches.
    fold (Server.listeners_of s f).
    rewrite run_calls_push, decide_True by done.
    by rewrite invalidate_cache_entry_lookup, decide_True, He by done.
  - unfold Server.read_file. by rewrite Hs.
  - by apply apply_update_unavailable.
Qed.

Lemma listeners_ignore_availability_witness :
  let s := Server.bring_down
             (Server.register_cache_listener (store_initial_files (Server.new NEW_YORK))
                "file1.txt" (invalidate_cache_entry_of 1)) in
  invalidate_cache_entry_of 0
    ∈ Server.listeners_of
        (Server.register_cache_listener s "file1.txt" (invalidate_cache_entry_of 0))
        "file1.txt"
  ∧ Server.read_file s "file1.txt" = None
  ∧ Server.apply_update s "file1.txt" "new" 2 = s.
Proof.
  intros s.
  destruct (listeners_ignore_availability s "file1.txt" "new" 2
              (invalidate_cache_entry_of 0) main_clients)
    as (Hreg & _ & _ & Hread & Hupd).
  - reflexivity.
  - exact (conj Hreg (conj Hread Hupd)).
Defined.

(** ** Choosing a replica for a read (C6) and the primary (C8) *)

Lemma find_Some_first {A} (P : A → bool) l r :
  List.find P l = Some r
  ↔ ∃ l1 l2, l = l1 ++ r :: l2 ∧ Forall (λ x, P x = false) l1 ∧ P r = true.
Proof.
  induction l as [|a l IH]; simpl.
  - split; [done|]. intros (l1 & l2 & Hl & _). by destruct l1.
  - destruct (P a) eqn:Ha.
    + split.
      * intros [= <-]. exists [], l. by repeat split.
      * intros (l1 & l2 & Hl & Hl1 & Hr). destruct l1 as [|b l1]; simpl in Hl.
        -- by inversion Hl.
        -- inversion Hl; subst. apply Forall_cons in Hl1 as [Hb _]. congruence.
    + rewrite IH. split.
      * intros (l1 & l2 & -> & Hl1 & Hr). exists (a :: l1), l2.
        split; [done|]. split; [by apply Forall_cons|done].
      * intros (l1 & l2 & Hl & Hl1 & Hr). destruct l1 as [|b l1]; simpl in Hl.
        -- inversion Hl; subst. congruence.
        -- inversion Hl; subst. apply Forall_cons in Hl1 as [_ Hl1].
           by exists l1, l2.
Qed.

Lemma find_None_all {A} (P : A → bool) l :
  List.find P l = None ↔ ∀ x, x ∈ l → P x = false.
Proof.
  induction l as [|a l IH]; simpl.
  - split; [|done]. intros _ x Hx. by apply elem_of_nil in Hx.
  - destruct (P a) eqn:Ha.
    + split; [done|]. intros Hall. rewrite Hall in Ha by left. done.
    + rewrite IH. split.
      * intros Hall x Hx. apply elem_of_cons in Hx as [->|Hx]; [done|by apply Hall].
      * intros Hall x Hx. apply Hall. by right.
Qed.

(** C6.  The read goes to the replica of the preferred site when there is one
    and it is available; otherwise to the first available replica in the
    order of [servers_by_dc]; and to none exactly when no replica is
    available. *)
Theorem best_server_for_read (d : DistributedFileSystem.t) (preferred_dc : DataCenter) :
  let best := DistributedFileSystem.get_best_server_for_read d preferred_dc in
  let down := λ r, DistributedFileSystem.is_available_at d r = false in
  ((∃ preferred, DistributedFileSystem.server_at d preferred_dc = Some preferred
                 ∧ Server.is_available preferred = true) →
   best = Some preferred_dc)
  ∧ (¬ (∃ preferred, DistributedFileSystem.server_at d preferred_dc = Some preferred
                     ∧ Server.is_available preferred = true) →
     ∀ r, best = Some r
          ↔ ∃ before after,
              DistributedFileSystem.get_all_servers d = before ++ r :: after
              ∧ Forall down before
              ∧ DistributedFileSystem.is_available_at d r = true)
  ∧ (best = None ↔ ∀ r, r ∈ DistributedFileSystem.get_all_servers d → down r).
Proof.
  intros best down. subst best.
  unfold DistributedFileSystem.get_best_server_for_read.
  fold (DistributedFileSystem.server_at d preferred_dc).
  destruct (DistributedFileSystem.server_at d preferred_dc) as [s|] eqn:Hs.
  - destruct (Server.is_available s) eqn:Hav.
    + split; [done|]. split; [intros Hn; exfalso; apply Hn; by exists s|].
      split; [done|]. intros Hall.
      assert (Hd : down preferred_dc) by (apply Hall; by eapply server_at_listed).
      unfold down, DistributedFileSystem.is_available_at in Hd.
      rewrite Hs in Hd. congruence.
    + split; [intros (s' & [= <-] & ?); congruence|].
      split; [intros _ r; apply find_Some_first | apply find_None_all].
  - split; [by intros (s' & ? & ?)|].
    split; [intros _ r; apply find_Some_first | apply find_None_all].
Qed.

Lemma best_server_for_read_witness :
  let d := Client.dfs (run [BringDown LONDON; BringDown NEW_YORK] main_world) in
  DistributedFileSystem.get_best_server_for_read d TORONTO = Some TORONTO
  ∧ DistributedFileSystem.get_best_server_for_read d LONDON = Some TORONTO.
Proof.
  intros d.
  destruct (best_server_for_read d TORONTO) as (Hpreferred & _ & _).
  destruct (best_server_for_read d LONDON) as (_ & Hfallback & _).
  split.
  - apply Hpreferred. eexists. split; reflexivity.
  - apply Hfallback.
    + intros (s & Hs & Hav). vm_compute in Hs. injection Hs as <-. discriminate Hav.
    + exists [NEW_YORK], [LONDON]. split; [reflexivity|].
      split; [|reflexivity]. apply Forall_cons. split; [reflexivity|apply Forall_nil_2].
Defined.

(** C8, as amended.  [get_primary_server] raises, and then [KeyError], exactly
    when the file has no entry in the primary table or its assigned site has
    no replica in [servers_by_dc]; otherwise it returns the replica of the
    assigned site.  Where every assigned site has a replica, it raises exactly
    on the files without an entry. *)
Theorem primary_lookup (d : DistributedFileSystem.t) (f : string) :
  (DistributedFileSystem.get_primary_server d f = Raise KeyError
   ↔ DistributedFileSystem.primary_table d !! f = None
     ∨ ∃ site, DistributedFileSystem.primary_table d !! f = Some site
               ∧ DistributedFileSystem.server_at d site = None)
  ∧ (∀ e, DistributedFileSystem.get_primary_server d f = Raise e → e = KeyError)
  ∧ (∀ site, DistributedFileSystem.primary_table d !! f = Some site →
             is_Some (DistributedFileSystem.server_at d site) →
             DistributedFileSystem.get_primary_server d f = Ok site)
  ∧ ((∀ site, DistributedFileSystem.primary_table d !! f = Some site →
              is_Some (DistributedFileSystem.server_at d site)) →
     primary_lookup_spec d f).
Proof.
  split; [|split; [|split]].
  - rewrite get_primary_server_Raise. intuition (eauto; congruence).
  - intros e He. by apply get_primary_server_Raise in He as [-> _].
  - intros site Ht Hs. by apply get_primary_server_Ok.
  - intros Hall. split.
    + split.
      * intros [e He]. apply get_primary_server_Raise in He as [_ [?|(p & Hp & Hn)]];
          [done|]. apply Hall in Hp as [s Hs]. congruence.
      * intros Hn. exists KeyError. apply get_primary_server_Raise. by eauto.
    + intros site Ht. split; [|by apply Hall].
      apply get_primary_server_Ok. split; [done|by apply Hall].
Qed.

Lemma primary_lookup_witness :
  DistributedFileSystem.get_primary_server build_system "file2.txt" = Ok TORONTO
  ∧ primary_lookup_spec build_system "file4.txt".
Proof.
  destruct (primary_lookup build_system "file2.txt") as (_ & _ & Hok & _).
  destruct (primary_lookup build_system "file4.txt") as (_ & _ & _ & Hspec).
  split.
  - apply Hok; [reflexivity|]. eexists. reflexivity.
  - apply Hspec. intros site Hsite. vm_compute in Hsite. discriminate Hsite.
Defined.

(** C8, as stated, fails: a file assigned to a site without a replica has an
    entry in the primary table and the lookup still raises. *)
Lemma primary_lookup_counterexample : ¬ primary_lookup_spec lone_system "file1.txt".
Proof.
  intros [Hiff _].
  assert (Hraise : ∃ e, DistributedFileSystem.get_primary_server lone_system "file1.txt"
                        = Raise e) by (exists KeyError; reflexivity).
  apply Hiff in Hraise. vm_compute in Hraise. discriminate Hraise.
Qed.

(** ** Quorum writes (C1, C2, C9) *)

Lemma stored_after_commit d d' f c v :
  (∀ r, DistributedFileSystem.server_at d' r
        = commit f c v <$> DistributedFileSystem.server_at d r) →
  ∀ r g,
    stored d' r g
    = if decide (f = g ∧ DistributedFileSystem.is_available_at d r = true)
      then Some (FileVersion.new (from_option FileVersion.name f (stored d r f)) c v)
      else stored d r g.
Proof.
  intros Hall r g. unfold stored, DistributedFileSystem.is_available_at.
  rewrite Hall. destruct (DistributedFileSystem.server_at d r) as [s|]; simpl.
  - apply stored_commit.
  - by rewrite decide_False by intuition (eauto; congruence).
Qed.

Lemma read_file_at_available d r f :
  DistributedFileSystem.is_available_at d r = true →
  DistributedFileSystem.read_file_at d r f = stored d r f.
Proof.
  unfold DistributedFileSystem.is_available_at, DistributedFileSystem.read_file_at,
    stored, Server.read_file.
  destruct (DistributedFileSystem.server_at d r) as [s|]; [|done]. by intros ->.
Qed.

Lemma read_file_at_unavailable d r f :
  DistributedFileSystem.is_available_at d r = false →
  DistributedFileSystem.read_file_at d r f = None.
Proof.
  unfold DistributedFileSystem.is_available_at, DistributedFileSystem.read_file_at,
    Server.read_file.
  destruct (DistributedFileSystem.server_at d r) as [s|]; [|done]. by intros ->.
Qed.

(** C1, as amended.  When the primary of [f] is available, a successful
    [write_file_with_quorum(f, c)] leaves the primary at its previous version
    plus one, and every replica that was available holds the same content and
    version as the primary, namely [c] at that version. *)
Theorem write_commits_when_primary_up (d : DistributedFileSystem.t) (f c : string) :
  primary_up d f →
  write_commits d f c
  ∧ ∀ (h : Client.Heap) d' h' p r,
      DistributedFileSystem.write_file_with_quorum Client.call d f c h
      = (Ok true, d', h') →
      DistributedFileSystem.primary_table d !! f = Some p →
      DistributedFileSystem.is_available_at d r = true →
      stored_pair d' r f = Some (c, stored_version d p f + 1).
Proof.
  intros Hup.
  assert (Hpair : ∀ (h : Client.Heap) d' h' p r,
    DistributedFileSystem.write_file_with_quorum Client.call d f c h
    = (Ok true, d', h') →
    DistributedFileSystem.primary_table d !! f = Some p →
    DistributedFileSystem.is_available_at d r = true →
    stored_pair d' r f = Some (c, stored_version d p f + 1)).
  { intros h d' h' p r Hw Hp Hr.
    destruct (write_cases d f c h)
      as [(e & _ & He) | [(q & _ & _ & He) | (q & d2 & Hq & _ & He & _ & _ & Hall)]];
      rewrite He in Hw; try discriminate Hw.
    injection Hw as <- <-.
    pose proof (Hup q Hq) as Hav.
    apply get_primary_server_Ok in Hq as [Hq _].
    assert (q = p) as -> by congruence.
    unfold stored_pair. rewrite (stored_after_commit _ _ _ _ _ Hall).
    rewrite decide_True by done. simpl.
    by rewrite read_file_at_available. }
  split; [|done].
  intros h d' h' p Hw Hp.
  assert (Hpav : DistributedFileSystem.is_available_at d p = true).
  { destruct (write_cases d f c h)
      as [(e & _ & He) | [(q & _ & _ & He) | (q & d2 & Hq & _ & He & _)]];
      rewrite He in Hw; try discriminate Hw.
    pose proof (Hup q Hq) as Hav.
    apply get_primary_server_Ok in Hq as [Hq _]. congruence. }
  split.
  - pose proof (Hpair h d' h' p p Hw Hp Hpav) as Hpp.
    unfold stored_pair in Hpp. unfold stored_version at 1.
    destruct (stored d' p f) as [fv|]; [|done]. simpl in Hpp.
    injection Hpp as _ Hv. exact Hv.
  - intros r Hr. by rewrite (Hpair h d' h' p r Hw Hp Hr), (Hpair h d' h' p p Hw Hp Hpav).
Qed.

Lemma write_commits_when_primary_up_witness :
  ∃ d' h',
    DistributedFileSystem.write_file_with_quorum Client.call build_system "file1.txt"
      "Updated by Alice at New York" main_clients
    = (Ok true, d', h')
    ∧ stored_version d' NEW_YORK "file1.txt"
      = stored_version build_system NEW_YORK "file1.txt" + 1
    ∧ stored_pair d' LONDON "file1.txt" = Some ("Updated by Alice at New York", 2).
Proof.
  set (out := DistributedFileSystem.write_file_with_quorum Client.call build_system
                "file1.txt" "Updated by Alice at New York" main_clients).
  assert (Hout : out = (Ok true, out.1.2, out.2)) by reflexivity.
  destruct (write_commits_when_primary_up build_system "file1.txt"
              "Updated by Alice at New York") as [Hcommits Hpair].
  - intros p Hp. vm_compute in Hp. injection Hp as <-. reflexivity.
  - exists out.1.2, out.2. split; [exact Hout|]. split.
    + by apply (Hcommits main_clients out.1.2 out.2 NEW_YORK Hout).
    + by apply (Hpair main_clients out.1.2 out.2 NEW_YORK LONDON Hout).
Defined.

(** C1, as stated, fails: with the primary down and the two other replicas
    up the write succeeds, the primary keeps its version and the replicas
    that were available do not hold the primary's content. *)
Lemma write_commits_counterexample :
  ¬ write_commits (Client.dfs primary_down_world) "file1.txt" "Second update".
Proof.
  intros Hclaim.
  set (out := DistributedFileSystem.write_file_with_quorum Client.call
                (Client.dfs primary_down_world) "file1.txt" "Second update"
                main_clients).
  destruct (Hclaim main_clients out.1.2 out.2 NEW_YORK) as [Hversion _].
  - reflexivity.
  - reflexivity.
  - vm_compute in Hversion. discriminate Hversion.
Qed.

(** C2, as amended.  Below quorum, [write_file_with_quorum(f, c)] on a file
    whose primary is found returns [False] and changes no replica and no
    client; on a file whose primary lookup fails it raises [KeyError], again
    changing nothing. *)
Theorem below_quorum_aborts (d : DistributedFileSystem.t) (f c : string) :
  ((∃ p, DistributedFileSystem.get_primary_server d f = Ok p) → quorum_gate d f c)
  ∧ ((∃ e, DistributedFileSystem.get_primary_server d f = Raise e) →
     ∀ h : Client.Heap,
       DistributedFileSystem.write_file_with_quorum Client.call d f c h
       = (Raise KeyError, d, h)).
Proof.
  split.
  - intros [p Hp] h Hq. by eapply write_below_quorum.
  - intros [e He] h. rewrite (write_raises _ _ _ _ _ He).
    by apply get_primary_server_Raise in He as [-> _].
Qed.

Lemma below_quorum_aborts_witness :
  quorum_gate (Client.dfs (run [BringDown TORONTO; BringDown LONDON] main_world))
    "file1.txt" "new".
Proof.
  apply (below_quorum_aborts
           (Client.dfs (run [BringDown TORONTO; BringDown LONDON] main_world))
           "file1.txt" "new").
  exists NEW_YORK. reflexivity.
Defined.

(** C2, as stated, fails: for a file without a primary the write raises
    instead of returning [False]. *)
Lemma quorum_gate_counterexample :
  ¬ quorum_gate (Client.dfs all_down_world) "file4.txt" "new".
Proof.
  intros Hclaim. specialize (Hclaim main_clients).
  assert (Hq : (quorum_size (Client.dfs all_down_world) < 2)%nat) by (vm_compute; lia).
  apply Hclaim in Hq. vm_compute in Hq. discriminate Hq.
Qed.

(** C9.  With the primary of [f] down and at least two replicas up, the write
    succeeds: it reads the primary's version as 0, leaves the primary as it
    was, and stores [c] at version 1 on every available replica, whatever
    version that replica held; replicas that are down are untouched. *)
Theorem write_with_primary_down
    (d : DistributedFileSystem.t) (f c : string) (h : Client.Heap)
    (p : DataCenter) (primary : Server.t) :
  DistributedFileSystem.primary_table d !! f = Some p →
  DistributedFileSystem.server_at d p = Some primary →
  Server.is_available primary = false →
  (2 ≤ quorum_size d)%nat →
  ∃ d' h',
    DistributedFileSystem.write_file_with_quorum Client.call d f c h = (Ok true, d', h')
    ∧ DistributedFileSystem.server_at d' p = Some primary
    ∧ (∀ r s, DistributedFileSystem.server_at d r = Some s →
              Server.is_available s = true →
              DistributedFileSystem.server_at d' r = Some (Server.apply_update s f c 1)
              ∧ stored_pair d' r f = Some (c, 1))
    ∧ (∀ r s, DistributedFileSystem.server_at d r = Some s →
              Server.is_available s = false →
              DistributedFileSystem.server_at d' r = Some s).
Proof.
  intros Ht Hp Hdown Hq.
  assert (Hprimary : DistributedFileSystem.get_primary_server d f = Ok p)
    by (apply get_primary_server_Ok; by eauto).
  destruct (write_commit d f c h p Hprimary Hq) as (d' & Hw & _ & _ & Hall).
  rewrite read_file_at_unavailable in Hall
    by (unfold DistributedFileSystem.is_available_at; by rewrite Hp).
  simpl in Hall.
  exists d', (DistributedFileSystem.run_calls Client.call
                (map (λ cb, (cb, f)) (listeners_at d p f)) h).
  split; [done|]. split; [|split].
  - rewrite Hall, Hp. simpl. unfold commit. by rewrite apply_update_unavailable.
  - intros r s Hr Hs. split; [by rewrite Hall, Hr|].
    unfold stored_pair. rewrite (stored_after_commit _ _ _ _ _ Hall).
    rewrite decide_True; [done|]. split; [done|].
    unfold DistributedFileSystem.is_available_at. by rewrite Hr.
  - intros r s Hr Hs. rewrite Hall, Hr. simpl. unfold commit.
    by rewrite apply_update_unavailable.
Qed.

Lemma write_with_primary_down_witness :
  stored_version (Client.dfs primary_down_world) TORONTO "file1.txt" = 2
  ∧ ∃ d' h',
      DistributedFileSystem.write_file_with_quorum Client.call
        (Client.dfs primary_down_world) "file1.txt" "Second update" main_clients
      = (Ok true, d', h')
      ∧ stored_pair d' TORONTO "file1.txt" = Some ("Second update", 1)
      ∧ stored_pair d' NEW_YORK "file1.txt"
        = Some ("Updated by Alice at New York", 2).
Proof.
  split; [reflexivity|].
  destruct (write_with_primary_down (Client.dfs primary_down_world) "file1.txt"
              "Second update" main_clients NEW_YORK
              (Server.bring_down
                 (Server.apply_update (store_initial_files (Server.new NEW_YORK))
                    "file1.txt" "Updated by Alice at New York" 2)))
    as (d' & h' & Hw & Hprimary & Hup & _).
  - reflexivity.
  - reflexivity.
  - reflexivity.
  - vm_compute. lia.
  - exists d', h'. split; [exact Hw|]. split.
    + eapply Hup; reflexivity.
    + unfold stored_pair, stored. rewrite Hprimary. reflexivity.
Defined.

(** ** Availability toggles *)

Lemma set_available_server_at r b w r' :
  DistributedFileSystem.server_at (Client.dfs (set_available r b w)) r'
  = (if decide (r = r') then (λ s, Server.set_alive s b) else id)
      <$> DistributedFileSystem.server_at (Client.dfs w) r'.
Proof.
  unfold set_available. simpl. rewrite server_at_update_at.
  destruct (decide (r = r')).
  - by destruct b.
  - by rewrite option_fmap_id.
Qed.

(** Toggles change availability flags and nothing else. *)
Lemma toggles_spec T w :
  DistributedFileSystem.primary_table (Client.dfs (toggles T w))
  = DistributedFileSystem.primary_table (Client.dfs w)
  ∧ Client.clients (toggles T w) = Client.clients w
  ∧ ∀ r, option_Forall2
           (λ s' s, Server.files s' = Server.files s
                    ∧ Server._cache_listeners s' = Server._cache_listeners s)
           (DistributedFileSystem.server_at (Client.dfs (toggles T w)) r)
           (DistributedFileSystem.server_at (Client.dfs w) r).
Proof.
  unfold toggles. revert w. induction T as [|[r b] T IH]; intros w; simpl.
  - split; [done|]. split; [done|]. intros r.
    destruct (DistributedFileSystem.server_at (Client.dfs w) r); by constructor.
  - destruct (IH (set_available r b w)) as (Ht & Hc & Hs).
    split; [by rewrite Ht|]. split; [by rewrite Hc|]. intros r'.
    specialize (Hs r'). rewrite set_available_server_at in Hs.
    destruct (DistributedFileSystem.server_at (Client.dfs w) r') as [s|];
      simpl in Hs; inversion Hs as [s' s'' [Hf Hl]|]; subst; constructor.
    destruct (decide (r = r')); simpl in *; by rewrite Hf, Hl.
Qed.

Lemma toggles_stored T w r f :
  stored (Client.dfs (toggles T w)) r f = stored (Client.dfs w) r f.
Proof.
  destruct (toggles_spec T w) as (_ & _ & Hs). specialize (Hs r). unfold stored.
  inversion Hs as [s' s [Hf _]|]; [by rewrite Hf | done].
Qed.

Lemma toggles_listeners_at T w r f :
  listeners_at (Client.dfs (toggles T w)) r f = listeners_at (Client.dfs w) r f.
Proof.
  destruct (toggles_spec T w) as (_ & _ & Hs). specialize (Hs r).
  unfold listeners_at, Server.listeners_of.
  inversion Hs as [s' s [_ Hl]|]; [by rewrite Hl | done].
Qed.

Lemma toggles_is_Some T w r :
  is_Some (DistributedFileSystem.server_at (Client.dfs (toggles T w)) r)
  ↔ is_Some (DistributedFileSystem.server_at (Client.dfs w) r).
Proof.
  destruct (toggles_spec T w) as (_ & _ & Hs). specialize (Hs r).
  inversion Hs; split; intros [? ?]; by eauto.
Qed.

Lemma toggles_get_primary_server T w f p :
  DistributedFileSystem.get_primary_server (Client.dfs (toggles T w)) f = Ok p
  ↔ DistributedFileSystem.get_primary_server (Client.dfs w) f = Ok p.
Proof.
  rewrite !get_primary_server_Ok, toggles_is_Some.
  by destruct (toggles_spec T w) as (-> & _).
Qed.

(** ** Client operations *)

Lemma get_best_server_available d preferred_dc r :
  DistributedFileSystem.get_best_server_for_read d preferred_dc = Some r →
  DistributedFileSystem.is_available_at d r = true.
Proof.
  unfold DistributedFileSystem.get_best_server_for_read.
  fold (DistributedFileSystem.server_at d preferred_dc).
  destruct (DistributedFileSystem.server_at d preferred_dc) as [s|] eqn:Hs.
  - destruct (Server.is_available s) eqn:Hav.
    + intros [= <-]. unfold DistributedFileSystem.is_available_at. by rewrite Hs.
    + intros Hf. by apply find_Some_first in Hf as (_ & _ & _ & _ & ?).
  - intros Hf. by apply find_Some_first in Hf as (_ & _ & _ & _ & ?).
Qed.

Lemma refresh_spec self f p w :
  Client.refresh self f p w
  = match DistributedFileSystem.read_file (Client.dfs w) f
            (Client.preferred_dc (Client.clients w self)) with
    | Raise e => (Raise e, w)
    | Ok None =>
        (Raise (Client.RuntimeError_cannot_read (Client.name (Client.clients w self)) f),
         w)
    | Ok (Some rf) =>
        (Ok (FileVersion.content rf),
         {| Client.dfs :=
              DistributedFileSystem.update_at (Client.dfs w) p (λ s,
                Server.register_cache_listener s f (invalidate_cache_entry_of self));
            Client.clients :=
              Client.update (Client.clients w) self (λ c,
                Client.set_cache c
                  (<[f := CacheEntry.new (FileVersion.content rf)
                            (FileVersion.version rf)]> (Client.cache c))) |})
    end.
Proof.
  unfold Client.refresh, Client.bind, Client.get, Client.lift. simpl.
  by destruct (DistributedFileSystem.read_file _ _ _) as [[rf|]|e].
Qed.

Lemma read_file_spec self f w :
  Client.read_file self f w
  = match DistributedFileSystem.get_primary_server (Client.dfs w) f with
    | Raise e => (Raise e, w)
    | Ok p =>
        match Client.cache (Client.clients w self) !! f with
        | Some e =>
            if CacheEntry.valid e
               && bool_decide (CacheEntry.version e
                               = version_of (DistributedFileSystem.read_file_at
                                               (Client.dfs w) p f))
            then (Ok (CacheEntry.content e), w)
            else Client.refresh self f p w
        | None => Client.refresh self f p w
        end
    end.
Proof.
  unfold Client.read_file, Client.bind, Client.get, Client.lift. simpl.
  destruct (DistributedFileSystem.get_primary_server (Client.dfs w) f) as [p|e];
    [simpl|done].
  destruct (Client.cache (Client.clients w self) !! f) as [e|]; [|done].
  unfold version_of. by destruct (CacheEntry.valid e && bool_decide _).
Qed.

Lemma read_file_at_Some d r f fv :
  DistributedFileSystem.read_file_at d r f = Some fv →
  DistributedFileSystem.is_available_at d r = true ∧ stored d r f = Some fv.
Proof.
  unfold DistributedFileSystem.read_file_at, DistributedFileSystem.is_available_at,
    stored, Server.read_file.
  destruct (DistributedFileSystem.server_at d r) as [s|]; [|done].
  by destruct (Server.is_available s).
Qed.

Lemma commit_keeps_availability d d' f c v r :
  (∀ r, DistributedFileSystem.server_at d' r
        = commit f c v <$> DistributedFileSystem.server_at d r) →
  DistributedFileSystem.is_available_at d' r = DistributedFileSystem.is_available_at d r.
Proof.
  intros Hall. unfold DistributedFileSystem.is_available_at. rewrite Hall.
  destruct (DistributedFileSystem.server_at d r) as [s|]; [|done]. simpl.
  unfold commit, Server.is_available. by rewrite apply_update_alive.
Qed.

Lemma write_file_commit self f c w p :
  DistributedFileSystem.get_primary_server (Client.dfs w) f = Ok p →
  (2 ≤ quorum_size (Client.dfs w))%nat →
  ∃ d',
    let h' := DistributedFileSystem.run_calls Client.call
                (map (λ cb, (cb, f)) (listeners_at (Client.dfs w) p f))
                (Client.clients w) in
    Client.write_file_with_quorum f c w
    = (Ok true, {| Client.dfs := d'; Client.clients := h' |})
    ∧ DistributedFileSystem.primary_table d'
      = DistributedFileSystem.primary_table (Client.dfs w)
    ∧ (∀ r, DistributedFileSystem.server_at d' r
            = commit f c
                (version_of (DistributedFileSystem.read_file_at (Client.dfs w) p f) + 1)
                <$> DistributedFileSystem.server_at (Client.dfs w) r)
    ∧ Client.write_file self f c w
      = (Ok tt,
         {| Client.dfs := d';
            Client.clients :=
              match DistributedFileSystem.read_file_at d' p f with
              | Some fv =>
                  Client.update h' self (λ c0,
                    Client.set_cache c0
                      (<[f := CacheEntry.new (FileVersion.content fv)
                                (FileVersion.version fv)]> (Client.cache c0)))
              | None => h'
              end |}).
Proof.
  intros Hp Hq.
  destruct (write_commit (Client.dfs w) f c (Client.clients w) p Hp Hq)
    as (d' & Hw & _ & Ht & Hall).
  exists d'. simpl.
  assert (Hp' : DistributedFileSystem.get_primary_server d' f = Ok p).
  { apply get_primary_server_Ok in Hp as [Hp [s Hs]].
    apply get_primary_server_Ok. rewrite Ht, Hall, Hs. by eauto. }
  split; [|split; [done|split; [done|]]].
  - unfold Client.write_file_with_quorum. by rewrite Hw.
  - unfold Client.write_file, Client.bind, Client.write_file_with_quorum.
    rewrite Hw. simpl. unfold Client.get, Client.lift. simpl. rewrite Hp'.
    by destruct (DistributedFileSystem.read_file_at d' p f).
Qed.

Lemma write_file_not_committed self f c w :
  (Client.write_file_with_quorum f c w).1 ≠ Ok true →
  Client.clients (Client.write_file self f c w).2 = Client.clients w
  ∧ Client.dfs (Client.write_file self f c w).2 = Client.dfs w.
Proof.
  unfold Client.write_file, Client.bind, Client.write_file_with_quorum.
  destruct (write_cases (Client.dfs w) f c (Client.clients w))
    as [(e & _ & He) | [(q & _ & _ & He) | (q & d2 & _ & _ & He & _)]];
    rewrite He; simpl; done.
Qed.

(** A read that goes to the replicas subscribes the reader at the primary. *)
Lemma refresh_subscribes self f p w x w' :
  DistributedFileSystem.get_primary_server (Client.dfs w) f = Ok p →
  Client.refresh self f p w = (Ok x, w') →
  subscribed (Client.dfs w') p f self.
Proof.
  intros Hp. apply get_primary_server_Ok in Hp as [_ [s Hs]]. rewrite refresh_spec.
  destruct (DistributedFileSystem.read_file _ _ _) as [[rf|]|e]; [|done|done].
  intros [= _ <-]. unfold subscribed, listeners_at. simpl.
  rewrite server_at_update_at, decide_True, Hs by done. simpl.
  apply register_listed.
Qed.

(** A read that answers leaves an entry for the file in the reader's cache
    and does not touch the primary table. *)
Lemma read_file_Ok_state self f w x w' :
  Client.read_file self f w = (Ok x, w') →
  DistributedFileSystem.primary_table (Client.dfs w')
  = DistributedFileSystem.primary_table (Client.dfs w)
  ∧ is_Some (Client.cache (Client.clients w' self) !! f).
Proof.
  rewrite read_file_spec.
  destruct (DistributedFileSystem.get_primary_server (Client.dfs w) f) as [p|e];
    [|done].
  assert (Href : Client.refresh self f p w = (Ok x, w') →
    DistributedFileSystem.primary_table (Client.dfs w')
    = DistributedFileSystem.primary_table (Client.dfs w)
    ∧ is_Some (Client.cache (Client.clients w' self) !! f)).
  { rewrite refresh_spec.
    destruct (DistributedFileSystem.read_file _ _ _) as [[rf|]|e]; [|done|done].
    intros [= _ <-]. simpl. split; [done|].
    unfold Client.update. rewrite decide_True by done. simpl.
    rewrite lookup_insert_eq. by eauto. }
  destruct (Client.cache (Client.clients w self) !! f) as [e|] eqn:He; [|apply Href].
  destruct (CacheEntry.valid e && bool_decide _); [|apply Href].
  intros [= _ <-]. by eauto.
Qed.

(** ** The writer's cache (C7) *)

Lemma writer_cache_primary_up (w : Client.World) (self : nat) (f c : string) :
  primary_up (Client.dfs w) f → writer_cache_spec w self f c.
Proof.
  intros Hup. unfold writer_cache_spec.
  split; [intros Hno; by destruct (write_file_not_committed self f c w Hno) as [-> _]|].
  destruct (write_cases (Client.dfs w) f c (Client.clients w))
    as [(e & _ & He) | [(q & _ & _ & He) | (q & d2 & Hq & Hquorum & _)]].
  - unfold Client.write_file_with_quorum. rewrite He. by split.
  - unfold Client.write_file_with_quorum. rewrite He. by split.
  - destruct (write_file_commit self f c w q Hq Hquorum)
      as (d' & Hw & Ht & Hall & Hwrite).
    simpl in Hw. rewrite Hw, Hwrite. simpl.
    pose proof Hq as Hq0. apply get_primary_server_Ok in Hq0 as [Hq0 _].
    assert (Hav : DistributedFileSystem.is_available_at (Client.dfs w) q = true)
      by by apply Hup.
    assert (Hav' : DistributedFileSystem.is_available_at d' q = true).
    { apply is_available_at_true in Hav as (s & Hs & Halive).
      apply is_available_at_true. exists (commit f c
        (version_of (DistributedFileSystem.read_file_at (Client.dfs w) q f) + 1) s).
      rewrite Hall, Hs. split; [done|]. unfold commit. by rewrite apply_update_alive. }
    assert (Hstored : stored d' q f
      = Some (FileVersion.new
                (from_option FileVersion.name f (stored (Client.dfs w) q f)) c
                (version_of (DistributedFileSystem.read_file_at (Client.dfs w) q f) + 1))).
    { rewrite (stored_after_commit _ _ _ _ _ Hall). by rewrite decide_True. }
    rewrite read_file_at_available by done. rewrite Hstored.
    split.
    + intros _ p Hp. assert (p = q) as -> by congruence.
      rewrite Hstored. simpl. unfold Client.update. rewrite decide_True by done.
      simpl. by rewrite lookup_insert_eq.
    + intros _.
      rewrite read_file_spec. simpl.
      assert (Hq' : DistributedFileSystem.get_primary_server d' f = Ok q).
      { apply get_primary_server_Ok. rewrite Ht. split; [done|].
        apply is_available_at_true in Hav' as (s & -> & _). by eauto. }
      rewrite Hq'. unfold Client.update at 1. rewrite decide_True by done. simpl.
      rewrite lookup_insert_eq. simpl.
      rewrite (read_file_at_available d') by done. rewrite Hstored. simpl.
      by rewrite bool_decide_eq_true_2.
Qed.

(** With the primary down, [write_file] adds nothing to what the
    coordinator's write did. *)
Lemma write_file_primary_down self f c w :
  (Client.write_file_with_quorum f c w).1 = Ok true →
  ¬ primary_up (Client.dfs w) f →
  (Client.write_file self f c w).2 = (Client.write_file_with_quorum f c w).2.
Proof.
  intros Hok Hdown.
  destruct (write_cases (Client.dfs w) f c (Client.clients w))
    as [(e & _ & He) | [(q & _ & _ & He) | (q & d2 & Hq & Hquorum & _)]].
  - unfold Client.write_file_with_quorum in Hok. rewrite He in Hok. discriminate Hok.
  - unfold Client.write_file_with_quorum in Hok. rewrite He in Hok. discriminate Hok.
  - destruct (write_file_commit self f c w q Hq Hquorum) as (d' & Hw & _ & Hall & Hwrite).
    simpl in Hw. rewrite Hw, Hwrite. simpl.
    rewrite read_file_at_unavailable; [done|].
    rewrite (commit_keeps_availability _ _ _ _ _ _ Hall).
    apply not_true_is_false. intros Hav. apply Hdown. intros p Hp. congruence.
Qed.

(** C7, as amended.  A coordinator write that does not succeed leaves the
    writer's cache as it was.  When the primary of [f] is available, a
    successful one replaces the writer's entry for [f] by the primary's
    resulting content and version, and the writer's next read answers the
    written content.  When it succeeds with the primary down, [write_file]
    replaces nothing: the system is as the coordinator's write left it. *)
Theorem writer_cache (w : Client.World) (self : nat) (f c : string) :
  let ok := (Client.write_file_with_quorum f c w).1 in
  let w' := (Client.write_file self f c w).2 in
  (ok ≠ Ok true → Client.clients w' = Client.clients w ∧ Client.dfs w' = Client.dfs w)
  ∧ (primary_up (Client.dfs w) f → writer_cache_spec w self f c)
  ∧ (ok = Ok true → ¬ primary_up (Client.dfs w) f →
     w' = (Client.write_file_with_quorum f c w).2).
Proof.
  intros ok w'. split; [|split].
  - apply write_file_not_committed.
  - apply writer_cache_primary_up.
  - by apply write_file_primary_down.
Qed.

Lemma writer_cache_witness :
  writer_cache_spec main_world 0 "file1.txt" "Updated by Alice at New York".
Proof.
  destruct (writer_cache main_world 0 "file1.txt" "Updated by Alice at New York")
    as (_ & Hup & _).
  apply Hup. intros p Hp. vm_compute in Hp. injection Hp as <-. reflexivity.
Defined.

(** C7, as stated, fails: with the primary down the coordinator write
    succeeds and the writer's cache gets no entry for the file. *)
Lemma writer_cache_counterexample :
  ¬ writer_cache_spec primary_down_world 0 "file1.txt" "Second update".
Proof.
  intros (_ & Hreplaced & _).
  specialize (Hreplaced eq_refl NEW_YORK eq_refl).
  vm_compute in Hreplaced. discriminate Hreplaced.
Qed.

(** ** Cache coherence (C4) *)

(** C4, as amended.  A reads [f] and is subscribed at the primary; replicas
    are toggled; B's write of [c] to [f] succeeds; replicas are toggled; then
    A's next read answers [c], provided the replica that serves that read was
    available during B's write. *)
Theorem stale_free_read
    (w0 : Client.World) (A B : nat) (f c : string) (T1 T2 : list (DataCenter * bool)) :
  served_by_written_replica w0 A B f c T1 T2 → cache_coherent w0 A B f c T1 T2.
Proof.
  intros (r & Hbest & Hr) x p Hread Hp Hsub Hok.
  unfold after_write, after_first_read in *.
  destruct (Client.read_file A f w0) as [r1 w1] eqn:Hread1. simpl in *. subst r1.
  destruct (read_file_Ok_state A f w0 x w1 Hread1) as [Ht1 [e1 He1]].
  set (w1' := toggles T1 w1) in *.
  destruct (toggles_spec T1 w1) as (Htt1 & Hc1 & _).
  fold w1' in Htt1, Hc1.
  (* the write is a committed one, through the primary [p] *)
  assert (Hcommit : ∃ q, DistributedFileSystem.get_primary_server (Client.dfs w1') f = Ok q
                         ∧ (2 ≤ quorum_size (Client.dfs w1'))%nat).
  { unfold Client.write_file_with_quorum in Hok.
    destruct (write_cases (Client.dfs w1') f c (Client.clients w1'))
      as [(e & _ & He) | [(q & _ & _ & He) | (q & d2 & Hq & Hquorum & _)]];
      [rewrite He in Hok; discriminate Hok | rewrite He in Hok; discriminate Hok |].
    by exists q. }
  destruct Hcommit as (q & Hq & Hquorum).
  assert (q = p) as ->.
  { apply get_primary_server_Ok in Hq as [Hq _]. rewrite Htt1, Ht1 in Hq. congruence. }
  destruct (write_file_commit B f c w1' p Hq Hquorum) as (d' & _ & Ht & Hall & Hwrite).
  simpl in Hwrite. rewrite Hwrite in Hbest |- *. cbn [snd] in Hbest |- *.
  set (h' := DistributedFileSystem.run_calls Client.call _ (Client.clients w1')) in *.
  set (w2 := {| Client.dfs := d'; Client.clients := _ |}) in *.
  destruct (toggles_spec T2 w2) as (Htt2 & Hc2 & _).
  (* A's entry after the write: invalid, or B's own fresh entry *)
  assert (HA : Client.cache (h' A) !! f = Some (CacheEntry.set_valid e1 false)).
  { unfold h'. rewrite run_calls_push. rewrite decide_True.
    - by rewrite invalidate_cache_entry_lookup, decide_True, Hc1, He1 by done.
    - unfold w1'. rewrite toggles_listeners_at. exact Hsub. }
  assert (Hentry : ∃ e2, Client.cache (Client.clients w2 A) !! f = Some e2
                         ∧ (CacheEntry.valid e2 = true → CacheEntry.content e2 = c)).
  { unfold w2. simpl.
    destruct (DistributedFileSystem.read_file_at d' p f) as [fv|] eqn:Hfv.
    - unfold Client.update. destruct (decide (A = B)) as [->|Hne].
      + simpl. rewrite lookup_insert_eq. eexists. split; [done|]. intros _. simpl.
        apply read_file_at_Some in Hfv as [Hav Hfv].
        rewrite (stored_after_commit _ _ _ _ _ Hall) in Hfv.
        rewrite decide_True in Hfv.
        * by injection Hfv as <-.
        * split; [done|]. by rewrite <- (commit_keeps_availability _ _ _ _ _ _ Hall).
      + exists (CacheEntry.set_valid e1 false). by split.
    - exists (CacheEntry.set_valid e1 false). by split. }
  destruct Hentry as (e2 & He2 & Hvalid).
  (* the replica that serves the second read holds the written content *)
  assert (Hserved : DistributedFileSystem.read_file (Client.dfs (toggles T2 w2)) f
                      (Client.preferred_dc (Client.clients (toggles T2 w2) A))
                    = Ok (Some (FileVersion.new
                                  (from_option FileVersion.name f
                                     (stored (Client.dfs w1') r f)) c
                                  (version_of (DistributedFileSystem.read_file_at
                                                 (Client.dfs w1') p f) + 1)))).
  { unfold DistributedFileSystem.read_file. rewrite Hbest. f_equal.
    rewrite read_file_at_available by by eapply get_best_server_available.
    rewrite toggles_stored. unfold w2. simpl.
    rewrite (stored_after_commit _ _ _ _ _ Hall). by rewrite decide_True. }
  rewrite read_file_spec.
  assert (Hp2 : DistributedFileSystem.get_primary_server (Client.dfs (toggles T2 w2)) f
                = Ok p).
  { apply toggles_get_primary_server. unfold w2. simpl.
    apply get_primary_server_Ok in Hq as [Hq [s Hs]].
    apply get_primary_server_Ok. rewrite Ht, Hall, Hs. by eauto. }
  rewrite Hp2, Hc2, He2.
  destruct (CacheEntry.valid e2) eqn:Hv; simpl.
  - destruct (bool_decide _); simpl.
    + by rewrite Hvalid.
    + rewrite refresh_spec, Hserved. done.
  - rewrite refresh_spec, Hserved. done.
Qed.

Lemma stale_free_read_witness :
  (Client.read_file 1 "file1.txt"
     (after_write main_world 1 0 "file1.txt" "Updated by Alice at New York"
        [(LONDON, false)] [])).1
  = Ok "Updated by Alice at New York".
Proof.
  apply (stale_free_read main_world 1 0 "file1.txt" "Updated by Alice at New York"
           [(LONDON, false)] [])
    with (x := "Initial content of file1") (p := NEW_YORK).
  - exists NEW_YORK. split; reflexivity.
  - reflexivity.
  - reflexivity.
  - vm_compute. apply list_elem_of_singleton. reflexivity.
  - reflexivity.
Defined.

(** C4, as stated, fails: Bob reads, London goes down, Alice's write
    succeeds on the two other replicas, London comes back, and Bob's next read
    is served by London, which still holds the initial content. *)
Lemma cache_coherent_counterexample :
  ¬ cache_coherent main_world 1 0 "file1.txt" "Updated by Alice at New York"
      [(LONDON, false)] [(LONDON, true)].
Proof.
  intros Hclaim.
  specialize (Hclaim "Initial content of file1" NEW_YORK).
  assert (Hstale :
    (Client.read_file 1 "file1.txt"
       (after_write main_world 1 0 "file1.txt" "Updated by Alice at New York"
          [(LONDON, false)] [(LONDON, true)])).1
    = Ok "Initial content of file1") by reflexivity.
  rewrite Hclaim in Hstale.
  - discriminate Hstale.
  - reflexivity.
  - reflexivity.
  - vm_compute. apply list_elem_of_singleton. reflexivity.
  - reflexivity.
Qed.

(** ** Versions along a run (C3) *)

Lemma run_app ops1 ops2 w : run (ops1 ++ ops2) w = run ops2 (run ops1 w).
Proof. apply foldl_app. Qed.

Lemma set_available_stored r b w r' f :
  stored (Client.dfs (set_available r b w)) r' f = stored (Client.dfs w) r' f.
Proof. apply (toggles_stored [(r, b)] w). Qed.

Lemma step_table w op :
  DistributedFileSystem.primary_table (Client.dfs (step w op))
  = DistributedFileSystem.primary_table (Client.dfs w).
Proof.
  destruct op as [g c|r|r]; [|done|done]. simpl.
  unfold Client.write_file_with_quorum.
  destruct (write_cases (Client.dfs w) g c (Client.clients w))
    as [(e & _ & He) | [(q & _ & _ & He) | (q & d2 & _ & _ & He & _ & Ht & _)]];
    by rewrite He.
Qed.

Lemma run_table ops w :
  DistributedFileSystem.primary_table (Client.dfs (run ops w))
  = DistributedFileSystem.primary_table (Client.dfs w).
Proof.
  revert w. induction ops as [|op ops IH]; intros w; [done|].
  simpl. fold (run ops (step w op)). by rewrite IH, step_table.
Qed.

(** One step either keeps every replica's version of [f], or is a committed
    write of [f] that moves the primary one version up and every replica it
    reaches to that same version. *)
Lemma step_versions w op f :
  match op with
  | Write g _ => g = f → primary_up (Client.dfs w) f
  | _ => True
  end →
  (∀ r, stored_version (Client.dfs (step w op)) r f = stored_version (Client.dfs w) r f)
  ∨ ∃ p, DistributedFileSystem.primary_table (Client.dfs w) !! f = Some p
         ∧ stored_version (Client.dfs (step w op)) p f
           = stored_version (Client.dfs w) p f + 1
         ∧ ∀ r, stored_version (Client.dfs (step w op)) r f
                = stored_version (Client.dfs w) r f
                ∨ stored_version (Client.dfs (step w op)) r f
                  = stored_version (Client.dfs w) p f + 1.
Proof.
  destruct op as [g c|r0|r0].
  - simpl. intros Hup. unfold Client.write_file_with_quorum.
    destruct (write_cases (Client.dfs w) g c (Client.clients w))
      as [(e & _ & He) | [(q & _ & _ & He) | (q & d2 & Hq & _ & He & _ & _ & Hall)]];
      rewrite He; simpl; [by left | by left |].
    destruct (decide (g = f)) as [->|Hne].
    + right. exists q.
      assert (Hav : DistributedFileSystem.is_available_at (Client.dfs w) q = true)
        by by apply Hup.
      apply get_primary_server_Ok in Hq as [Hq _].
      split; [done|].
      rewrite read_file_at_available in Hall by done.
      fold (stored_version (Client.dfs w) q f) in Hall.
      split.
      * unfold stored_version at 1. rewrite (stored_after_commit _ _ _ _ _ Hall).
        by rewrite decide_True.
      * intros r. unfold stored_version at 1 3.
        rewrite (stored_after_commit _ _ _ _ _ Hall).
        destruct (decide _); [by right | by left].
    + left. intros r. unfold stored_version.
      rewrite (stored_after_commit _ _ _ _ _ Hall).
      by rewrite decide_False by intuition (eauto; congruence).
  - intros _. left. intros r.
    exact (f_equal version_of (set_available_stored r0 false w r f)).
  - intros _. left. intros r.
    exact (f_equal version_of (set_available_stored r0 true w r f)).
Qed.

Lemma step_monotone w op f :
  no_replica_ahead (Client.dfs w) f →
  match op with
  | Write g _ => g = f → primary_up (Client.dfs w) f
  | _ => True
  end →
  no_replica_ahead (Client.dfs (step w op)) f
  ∧ ∀ r, stored_version (Client.dfs w) r f ≤ stored_version (Client.dfs (step w op)) r f.
Proof.
  intros Hinv Hup.
  destruct (step_versions w op f Hup) as [Hsame | (p & Hp & Hprimary & Hrest)].
  - split.
    + intros p r. rewrite step_table, !Hsame. apply Hinv.
    + intros r. rewrite Hsame. lia.
  - split.
    + intros p' r. rewrite step_table. intros Hp'. assert (p' = p) as -> by congruence.
      rewrite Hprimary. pose proof (Hinv p r Hp).
      destruct (Hrest r) as [-> | ->]; lia.
    + intros r. pose proof (Hinv p r Hp). destruct (Hrest r) as [-> | ->]; lia.
Qed.

Lemma run_monotone ops f :
  ∀ w,
    no_replica_ahead (Client.dfs w) f →
    primary_up_when_written f ops w →
    no_replica_ahead (Client.dfs (run ops w)) f
    ∧ ∀ r, stored_version (Client.dfs w) r f ≤ stored_version (Client.dfs (run ops w)) r f.
Proof.
  induction ops as [|op ops IH]; intros w Hinv Hup.
  - split; [done|]. intros r. simpl. lia.
  - destruct Hup as [Hop Hup].
    destruct (step_monotone w op f Hinv Hop) as [Hinv' Hle].
    destruct (IH (step w op) Hinv' Hup) as [Hinv'' Hle'].
    split; [done|]. intros r. specialize (Hle r). specialize (Hle' r).
    change (run (op :: ops) w) with (run ops (step w op)). lia.
Qed.

Lemma primary_up_when_written_app f ops1 ops2 w :
  primary_up_when_written f (ops1 ++ ops2) w →
  primary_up_when_written f ops1 w ∧ primary_up_when_written f ops2 (run ops1 w).
Proof.
  revert w. induction ops1 as [|op ops1 IH]; intros w; simpl; [done|].
  intros [Hop Hup]. apply IH in Hup as [? ?]. done.
Qed.

(** C3, as amended.  From a state in which no replica holds [f] at a higher
    version than the primary of [f], along any run of writes and availability
    toggles in which the primary of [f] is available whenever [f] is written,
    no replica's version of [f] ever decreases; every step leaves a replica's
    version alone or sets it to the primary's previous version plus one. *)
Theorem versions_never_decrease (w : Client.World) (ops : list Op) (f : string) :
  no_replica_ahead (Client.dfs w) f →
  primary_up_when_written f ops w →
  never_decreases w ops f ∧ steps_through_primary w ops f.
Proof.
  intros Hinv Hup. split.
  - intros ops1 ops2 r ->. rewrite run_app.
    apply primary_up_when_written_app in Hup as [Hup1 Hup2].
    destruct (run_monotone ops1 f w Hinv Hup1) as [Hinv1 _].
    by destruct (run_monotone ops2 f (run ops1 w) Hinv1 Hup2) as [_ Hle].
  - intros ops1 op ops2 p r -> Hp. simpl.
    apply primary_up_when_written_app in Hup as [_ [Hop _]].
    destruct (step_versions (run ops1 w) op f Hop) as [Hsame | (p' & Hp' & _ & Hrest)].
    + by left.
    + rewrite run_table in Hp'. assert (p' = p) as -> by congruence. apply Hrest.
Qed.

(** Where no replica is down, writes alone keep it so: the condition on the
    primary holds along every run of writes. *)
Lemma writes_keep_all_up w g c :
  all_up (Client.dfs w) → all_up (Client.dfs (step w (Write g c))).
Proof.
  intros Hall. simpl. unfold Client.write_file_with_quorum.
  destruct (write_cases (Client.dfs w) g c (Client.clients w))
    as [(e & _ & He) | [(q & _ & _ & He) | (q & d2 & _ & _ & He & _ & _ & Hs)]];
    rewrite He; simpl; [done|done|].
  intros r s. rewrite Hs.
  destruct (DistributedFileSystem.server_at (Client.dfs w) r) as [s0|] eqn:Hr;
    [|done].
  intros [= <-]. unfold commit, Server.is_available. rewrite apply_update_alive.
  by apply (Hall r).
Qed.

Lemma writes_primary_up f ops :
  ∀ w, Forall is_write ops → all_up (Client.dfs w) → primary_up_when_written f ops w.
Proof.
  induction ops as [|op ops IH]; intros w Hops Hall; [done|].
  apply Forall_cons in Hops as [Hop Hops]. destruct op as [g c|r|r]; [|done|done].
  split.
  - intros _ p Hp. apply get_primary_server_Ok in Hp as [_ [s Hs]].
    unfold DistributedFileSystem.is_available_at. rewrite Hs. by apply (Hall p).
  - apply IH; [done|]. by apply writes_keep_all_up.
Qed.

Lemma versions_never_decrease_witness :
  let ops := [Write "file1.txt" "Updated by Alice at New York"; BringDown LONDON;
              Write "file1.txt" "Second update while London is down"; BringUp LONDON] in
  never_decreases main_world ops "file1.txt"
  ∧ steps_through_primary main_world ops "file1.txt".
Proof.
  apply (versions_never_decrease main_world
           [Write "file1.txt" "Updated by Alice at New York"; BringDown LONDON;
            Write "file1.txt" "Second update while London is down"; BringUp LONDON]
           "file1.txt").
  - intros p r Hp. vm_compute in Hp. injection Hp as <-.
    destruct r; vm_compute; discriminate.
  - simpl. repeat split; intros _ p Hp; vm_compute in Hp; injection Hp as <-;
      reflexivity.
Defined.

(** C3, as stated, fails: Toronto is loaded at version 5 and the primary at
    version 1; the first write sets Toronto to version 2. *)
Lemma never_decreases_counterexample :
  ¬ never_decreases skewed_world [Write "file1.txt" "Y"] "file1.txt".
Proof.
  intros Hclaim.
  specialize (Hclaim [] [Write "file1.txt" "Y"] TORONTO eq_refl).
  vm_compute in Hclaim. by apply Hclaim.
Qed.


(** * Further properties of the code *)

(** ** Servers on their own *)

(** [store_initial_file] does not look at availability: the file is stored
    under its name, over any earlier entry, and is what [read_file] answers
    once the server is up; no other file changes. *)
Theorem store_initial_file_read (s : Server.t) (n c : string) (v : Z) (n' : string) :
  Server.read_file (Server.bring_up (Server.store_initial_file s n c v)) n'
  = if decide (n = n') then Some (FileVersion.new n c v) else Server.files s !! n'.
Proof.
  unfold Server.read_file, Server.is_available. simpl.
  destruct (decide (n = n')) as [<-|Hne].
  - by rewrite lookup_insert_eq.
  - by rewrite lookup_insert_ne.
Qed.

(** The [name] of every stored [FileVersion] is the key it is stored under. *)
Lemma reachable_names s :
  Server.reachable s →
  ∀ n fv, Server.files s !! n = Some fv → FileVersion.name fv = n.
Proof.
  induction 1 as [d|s Hs IH|s Hs IH|s n0 c v Hs IH|s n0 c v Hs IH|s f h Hs IH];
    intros n fv.
  - simpl. by rewrite lookup_empty.
  - apply IH.
  - apply IH.
  - simpl. destruct (decide (n0 = n)) as [->|Hne].
    + rewrite lookup_insert_eq. by intros [= <-].
    + rewrite lookup_insert_ne by done. apply IH.
  - destruct (Server.alive s) eqn:Halive.
    + rewrite apply_update_files by done.
      destruct (decide (n0 = n)) as [->|Hne]; [|apply IH].
      intros [= <-]. simpl.
      destruct (Server.files s !! n) as [fv0|] eqn:Hfv0; simpl; [|done].
      by eapply IH.
    + rewrite apply_update_unavailable by done. apply IH.
  - destruct (register_files s f h) as [-> _]. apply IH.
Qed.

(** On a server the code can build, whatever [read_file] answers for a name
    carries that name. *)
Theorem read_file_name (s : Server.t) (n : string) (fv : FileVersion.t) :
  Server.reachable s → Server.read_file s n = Some fv → FileVersion.name fv = n.
Proof.
  intros Hs. unfold Server.read_file.
  destruct (negb (Server.is_available s)); [done|]. by apply reachable_names.
Qed.

Lemma read_file_name_witness :
  FileVersion.name
    (FileVersion.new "file1.txt" "Initial content of file1" 1) = "file1.txt".
Proof.
  apply (read_file_name (store_initial_files (Server.new NEW_YORK)) "file1.txt").
  - repeat apply Server.reach_store_initial_file. apply Server.reach_new.
  - reflexivity.
Defined.

(** On an available server the code can build, [apply_update] followed by
    [read_file] answers exactly the written file, and no other file changes. *)
Theorem apply_update_read (s : Server.t) (n c : string) (v : Z) (n' : string) :
  Server.reachable s →
  Server.is_available s = true →
  Server.read_file (Server.apply_update s n c v) n'
  = if decide (n = n') then Some (FileVersion.new n c v) else Server.read_file s n'.
Proof.
  intros Hs Hav. unfold Server.read_file, Server.is_available in *.
  rewrite apply_update_alive, Hav. simpl. rewrite apply_update_files by done.
  destruct (decide (n = n')) as [<-|Hne]; [|done].
  destruct (Server.files s !! n) as [fv|] eqn:Hfv; simpl; [|done].
  by rewrite (reachable_names s Hs n fv Hfv).
Qed.

Lemma apply_update_read_witness :
  Server.read_file
    (Server.apply_update (store_initial_files (Server.new NEW_YORK)) "file1.txt"
       "Updated by Alice at New York" 2) "file1.txt"
  = Some (FileVersion.new "file1.txt" "Updated by Alice at New York" 2).
Proof.
  apply (apply_update_read (store_initial_files (Server.new NEW_YORK)) "file1.txt"
           "Updated by Alice at New York" 2 "file1.txt").
  - repeat apply Server.reach_store_initial_file. apply Server.reach_new.
  - reflexivity.
Defined.

(** An outage loses nothing and stores nothing: a server that is down answers
    no read, an update sent to it is dropped, and after [bring_up] it answers
    every read from the files it held when it went down and still has its
    subscribers. *)
Theorem outage_and_recovery (s : Server.t) (n c : string) (v : Z) (n' f : string) :
  Server.read_file (Server.bring_down s) n' = None
  ∧ Server.apply_update (Server.bring_down s) n c v = Server.bring_down s
  ∧ Server.read_file (Server.bring_up (Server.apply_update (Server.bring_down s) n c v)) n'
    = Server.files s !! n'
  ∧ Server.listeners_of
      (Server.bring_up (Server.apply_update (Server.bring_down s) n c v)) f
    = Server.listeners_of s f.
Proof.
  assert (Hdrop : Server.apply_update (Server.bring_down s) n c v = Server.bring_down s)
    by by apply apply_update_unavailable.
  split; [done|]. split; [done|]. by rewrite Hdrop.
Qed.

(** ** Building the coordinator *)

Lemma dict_get_set {K V : Type} `{EqDecision K} (d : list (K * V)) k v k' :
  dict_get (dict_set d k v) k' = if decide (k = k') then Some v else dict_get d k'.
Proof.
  induction d as [|[k0 v0] d IH]; simpl.
  - by destruct (decide (k = k')).
  - destruct (decide (k0 = k)) as [->|Hne]; simpl.
    + by destruct (decide (k = k')).
    + destruct (decide (k0 = k')) as [->|]; [|done].
      by rewrite decide_False by congruence.
Qed.

Lemma new_snoc l s table :
  DistributedFileSystem.servers_by_dc (DistributedFileSystem.new (l ++ [s]) table)
  = dict_set (DistributedFileSystem.servers_by_dc (DistributedFileSystem.new l table))
      (Server.dc s) s.
Proof. unfold DistributedFileSystem.new. simpl. by rewrite foldl_snoc. Qed.

Lemma filter_none {A} (P : A → Prop) `{∀ x, Decision (P x)} (l : list A) :
  (∀ x, x ∈ l → ¬ P x) → filter P l = [].
Proof.
  induction l as [|x l IH]; intros Hall; [done|].
  rewrite filter_cons_False by (apply Hall; by left).
  apply IH. intros y Hy. apply Hall. by right.
Qed.

(** [DistributedFileSystem(servers, table)]: of several servers of one data
    center the last one is kept; the keys are unique; and when all servers are
    of different data centers, they are enumerated in the order of the list
    and each is found under its data center. *)
Theorem new_servers (servers : list Server.t) (table : gmap string DataCenter) :
  let d := DistributedFileSystem.new servers table in
  (∀ r, DistributedFileSystem.server_at d r
        = last (filter (λ s, Server.dc s = r) servers))
  ∧ NoDup (DistributedFileSystem.get_all_servers d)
  ∧ (NoDup (map Server.dc servers) →
     DistributedFileSystem.get_all_servers d = map Server.dc servers
     ∧ ∀ s, s ∈ servers → DistributedFileSystem.server_at d (Server.dc s) = Some s).
Proof.
  simpl.
  assert (Hlookup : ∀ r, DistributedFileSystem.server_at
                           (DistributedFileSystem.new servers table) r
                         = last (filter (λ s, Server.dc s = r) servers)).
  { intros r. unfold DistributedFileSystem.server_at.
    induction servers as [|s l IH] using rev_ind; [done|].
    rewrite new_snoc, dict_get_set, filter_app, filter_cons, filter_nil.
    destruct (decide (Server.dc s = r)) as [Heq|Hne].
    - by rewrite last_snoc.
    - by rewrite app_nil_r. }
  split; [done|]. split; [apply new_wf|].
  intros Hnd. split.
  - unfold DistributedFileSystem.get_all_servers. clear Hlookup.
    induction servers as [|s l IH] using rev_ind; [done|].
    rewrite map_app in Hnd |- *. apply NoDup_app in Hnd as (Hl & Hs & _).
    rewrite new_snoc, dict_keys_set, IH by done.
    rewrite decide_False; [done|]. intros Hin.
    apply (Hs _ Hin). simpl. by left.
  - intros s Hs. rewrite Hlookup.
    apply list_elem_of_split in Hs as (l1 & l2 & ->).
    rewrite filter_app, filter_cons, decide_True by done.
    rewrite map_app in Hnd. simpl in Hnd.
    apply NoDup_app in Hnd as (_ & _ & Hnd2). apply NoDup_cons in Hnd2 as [Hs2 _].
    rewrite (filter_none _ l2).
    + by rewrite last_snoc.
    + intros x Hx Heq. apply Hs2. rewrite <- Heq.
      apply list_elem_of_fmap. by exists x.
Qed.

(** ** Coordinator reads and writes *)

Lemma get_best_server_None d preferred_dc :
  DistributedFileSystem.get_best_server_for_read d preferred_dc = None
  ↔ ∀ r, r ∈ DistributedFileSystem.get_all_servers d →
         DistributedFileSystem.is_available_at d r = false.
Proof.
  unfold DistributedFileSystem.get_best_server_for_read.
  fold (DistributedFileSystem.server_at d preferred_dc).
  destruct (DistributedFileSystem.server_at d preferred_dc) as [s|] eqn:Hs;
    [|apply find_None_all].
  destruct (Server.is_available s) eqn:Hav; [|apply find_None_all].
  split; [done|]. intros Hall.
  specialize (Hall preferred_dc (server_at_listed _ _ _ Hs)).
  unfold DistributedFileSystem.is_available_at in Hall. rewrite Hs in Hall. congruence.
Qed.

(** The coordinator's read raises, and then the [RuntimeError] for "no
    replica", exactly when every replica is down.  Otherwise it answers what
    one available replica stores for the file, which is nothing when that
    replica never got the file; and it is the preferred replica that answers
    whenever that one is available. *)
Theorem dfs_read_file (d : DistributedFileSystem.t) (f : string) (preferred_dc : DataCenter) :
  let answer := DistributedFileSystem.read_file d f preferred_dc in
  (answer = Raise (RuntimeError "No replica available to serve read")
   ↔ ∀ r, r ∈ DistributedFileSystem.get_all_servers d →
          DistributedFileSystem.is_available_at d r = false)
  ∧ (∀ e, answer = Raise e → e = RuntimeError "No replica available to serve read")
  ∧ (∀ o, answer = Ok o →
          ∃ r, DistributedFileSystem.is_available_at d r = true ∧ o = stored d r f)
  ∧ (DistributedFileSystem.is_available_at d preferred_dc = true →
     answer = Ok (stored d preferred_dc f)).
Proof.
  simpl. unfold DistributedFileSystem.read_file.
  destruct (DistributedFileSystem.get_best_server_for_read d preferred_dc) as [r|] eqn:Hr.
  - pose proof (get_best_server_available _ _ _ Hr) as Hav.
    split; [|split; [done|split]].
    + split; [done|]. intros Hall.
      pose proof (proj2 (get_best_server_None d preferred_dc) Hall). congruence.
    + intros o [= <-]. exists r. split; [done|]. by apply read_file_at_available.
    + intros Hpref. f_equal.
      assert (r = preferred_dc) as ->; [|by apply read_file_at_available].
      unfold DistributedFileSystem.get_best_server_for_read in Hr.
      apply is_available_at_true in Hpref as (s & Hs & Halive).
      unfold DistributedFileSystem.server_at in Hs. rewrite Hs in Hr.
      unfold Server.is_available in Hr. rewrite Halive in Hr. congruence.
  - split; [|split; [by intros e [= <-]|split; [done|]]].
    + split; [intros _; exact (proj1 (get_best_server_None d preferred_dc) Hr) | done].
    + intros Hpref. pose proof (proj1 (get_best_server_None d preferred_dc) Hr) as Hall.
      apply is_available_at_true in Hpref as (s & Hs & Halive).
      specialize (Hall preferred_dc (server_at_listed _ _ _ Hs)).
      unfold DistributedFileSystem.is_available_at, Server.is_available in Hall.
      rewrite Hs in Hall. congruence.
Qed.

Lemma dfs_read_file_witness :
  let d := Client.dfs (run [BringDown LONDON] main_world) in
  DistributedFileSystem.read_file d "file1.txt" NEW_YORK
  = Ok (stored d NEW_YORK "file1.txt").
Proof.
  intros d. apply (dfs_read_file d "file1.txt" NEW_YORK). reflexivity.
Defined.

(** The outcome of [write_file_with_quorum] is decided by two tests only: the
    primary lookup and the count of available replicas.  It commits exactly
    when the lookup succeeds and at least two replicas are up, whether or not
    the primary is one of them; returns [False] exactly when the lookup
    succeeds and fewer than two are up; raises [KeyError] exactly when the
    lookup fails; and does nothing else. *)
Theorem write_outcome (d : DistributedFileSystem.t) (f c : string) (h : Client.Heap) :
  let outcome := (DistributedFileSystem.write_file_with_quorum Client.call d f c h).1.1 in
  let found := ∃ p, DistributedFileSystem.get_primary_server d f = Ok p in
  (outcome = Ok true ↔ found ∧ (2 ≤ quorum_size d)%nat)
  ∧ (outcome = Ok false ↔ found ∧ (quorum_size d < 2)%nat)
  ∧ (outcome = Raise KeyError ↔ ¬ found)
  ∧ (outcome = Ok true ∨ outcome = Ok false ∨ outcome = Raise KeyError).
Proof.
  simpl.
  destruct (write_cases d f c h)
    as [(e & Hp & He) | [(q & Hp & Hq & He) | (q & d2 & Hp & Hq & He & _)]];
    rewrite He; simpl.
  - assert (e = KeyError) as -> by by apply get_primary_server_Raise in Hp as [-> _].
    assert (Hnone : ¬ ∃ p, DistributedFileSystem.get_primary_server d f = Ok p)
      by (intros [p Hp']; congruence).
    split; [split; [done | by intros [? _]]|].
    split; [split; [done | by intros [? _]]|].
    split; [done | by right; right].
  - assert (Hfound : ∃ p, DistributedFileSystem.get_primary_server d f = Ok p)
      by by exists q.
    split; [split; [done | intros [_ ?]; lia]|].
    split; [done|]. split; [split; [done | by intros Hn] | by right; left].
  - assert (Hfound : ∃ p, DistributedFileSystem.get_primary_server d f = Ok p)
      by by exists q.
    split; [done|]. split; [split; [done | intros [_ ?]; lia]|].
    split; [split; [done | by intros Hn] | by left].
Qed.

(** What a coordinator write never touches: the replicas and their order, the
    primary table, which replicas are up, every subscriber list, every file
    other than the one written, and every replica that is down. *)
Theorem write_frame (d : DistributedFileSystem.t) (f c : string) (h : Client.Heap) :
  let d' := (DistributedFileSystem.write_file_with_quorum Client.call d f c h).1.2 in
  DistributedFileSystem.get_all_servers d' = DistributedFileSystem.get_all_servers d
  ∧ DistributedFileSystem.primary_table d' = DistributedFileSystem.primary_table d
  ∧ ∀ r,
      DistributedFileSystem.is_available_at d' r = DistributedFileSystem.is_available_at d r
      ∧ (∀ g, listeners_at d' r g = listeners_at d r g)
      ∧ (∀ g, g ≠ f → stored d' r g = stored d r g)
      ∧ (DistributedFileSystem.is_available_at d r = false →
         DistributedFileSystem.server_at d' r = DistributedFileSystem.server_at d r).
Proof.
  simpl.
  destruct (write_cases d f c h)
    as [(e & _ & He) | [(q & _ & _ & He) | (q & d2 & _ & _ & He & Hk & Ht & Hall)]];
    rewrite He; simpl; [done|done|].
  split; [done|]. split; [done|]. intros r.
  split; [by eapply commit_keeps_availability|]. split; [|split].
  - intros g. unfold listeners_at, Server.listeners_of. rewrite Hall.
    destruct (DistributedFileSystem.server_at d r) as [s|]; [|done]. simpl.
    unfold commit. by rewrite apply_update_listeners.
  - intros g Hne. rewrite (stored_after_commit _ _ _ _ _ Hall).
    rewrite decide_False; [done|]. by intros [-> _].
  - intros Hdown. rewrite Hall.
    destruct (DistributedFileSystem.server_at d r) as [s|] eqn:Hs; [|done]. simpl.
    unfold commit. rewrite apply_update_unavailable; [done|].
    unfold DistributedFileSystem.is_available_at in Hdown. by rewrite Hs in Hdown.
Qed.

(** The push of a write marks invalid the entries for the written file of the
    clients subscribed at its primary, and does nothing else to any client: no
    entry appears or disappears, no content or version changes, and a write
    that does not commit pushes nothing. *)
Theorem write_push (d : DistributedFileSystem.t) (f c : string) (h : Client.Heap) :
  let out := DistributedFileSystem.write_file_with_quorum Client.call d f c h in
  (out.1.1 ≠ Ok true → out.2 = h)
  ∧ (out.1.1 = Ok true →
     ∀ p a g,
       DistributedFileSystem.get_primary_server d f = Ok p →
       Client.name (out.2 a) = Client.name (h a)
       ∧ Client.preferred_dc (out.2 a) = Client.preferred_dc (h a)
       ∧ Client.cache (out.2 a) !! g
         = if decide (g = f ∧ invalidate_cache_entry_of a ∈ listeners_at d p f)
           then (λ e, CacheEntry.set_valid e false) <$> Client.cache (h a) !! g
           else Client.cache (h a) !! g).
Proof.
  simpl.
  destruct (write_cases d f c h)
    as [(e & _ & He) | [(q & _ & _ & He) | (q & d2 & Hq & _ & He & _)]];
    rewrite He; simpl; [by split | by split |].
  split; [done|]. intros _ p a g Hp. assert (p = q) as -> by congruence.
  rewrite run_calls_push.
  destruct (decide (invalidate_cache_entry_of a ∈ listeners_at d q f)) as [Hin|Hout].
  - destruct (invalidate_cache_entry_attrs (h a) f) as [-> ->].
    split; [done|]. split; [done|]. rewrite invalidate_cache_entry_lookup.
    destruct (decide (f = g)) as [->|Hne].
    + by rewrite decide_True.
    + rewrite decide_False; [done|]. by intros [-> _].
  - split; [done|]. split; [done|]. rewrite decide_False; [done|]. by intros [_ ?].
Qed.

Lemma write_push_witness :
  let w := (Client.read_file 1 "file1.txt" main_world).2 in
  let out := DistributedFileSystem.write_file_with_quorum Client.call (Client.dfs w)
               "file1.txt" "Updated by Alice at New York" (Client.clients w) in
  Client.cache (out.2 1%nat) !! "file1.txt"
  = Some (CacheEntry.mk "Initial content of file1" 1 false).
Proof.
  intros w out.
  destruct (write_push (Client.dfs w) "file1.txt" "Updated by Alice at New York"
              (Client.clients w)) as [_ Hpush].
  destruct (Hpush eq_refl NEW_YORK 1%nat "file1.txt" eq_refl) as (_ & _ & Hcache).
  fold out in Hcache. rewrite Hcache. reflexivity.
Defined.

(** ** Client reads *)

(** Subscribing changes neither the files nor the availability of a server,
    so no read of the coordinator sees it. *)
Lemma subscribe_invisible d p f h :
  let d' := DistributedFileSystem.update_at d p
              (λ s, Server.register_cache_listener s f h) in
  (∀ r g, stored d' r g = stored d r g)
  ∧ (∀ r, DistributedFileSystem.is_available_at d' r
          = DistributedFileSystem.is_available_at d r)
  ∧ (∀ r g, DistributedFileSystem.read_file_at d' r g
            = DistributedFileSystem.read_file_at d r g)
  ∧ (∀ g q, DistributedFileSystem.get_primary_server d' g = Ok q
            ↔ DistributedFileSystem.get_primary_server d g = Ok q)
  ∧ (∀ g preferred_dc, DistributedFileSystem.read_file d' g preferred_dc
                       = DistributedFileSystem.read_file d g preferred_dc).
Proof.
  intros d'.
  assert (Hat : ∀ r, DistributedFileSystem.server_at d' r
                     = (if decide (p = r)
                        then λ s, Server.register_cache_listener s f h else id)
                         <$> DistributedFileSystem.server_at d r).
  { intros r. unfold d'. rewrite server_at_update_at.
    destruct (decide (p = r)); [done|]. by rewrite option_fmap_id. }
  assert (Hstored : ∀ r g, stored d' r g = stored d r g).
  { intros r g. unfold stored. rewrite Hat.
    destruct (DistributedFileSystem.server_at d r) as [s|]; [|done]. simpl.
    destruct (decide (p = r)); [|done]. by destruct (register_files s f h) as [-> _]. }
  assert (Hav : ∀ r, DistributedFileSystem.is_available_at d' r
                     = DistributedFileSystem.is_available_at d r).
  { intros r. unfold DistributedFileSystem.is_available_at. rewrite Hat.
    destruct (DistributedFileSystem.server_at d r) as [s|]; [|done]. simpl.
    destruct (decide (p = r)); [|done]. unfold Server.is_available.
    by destruct (register_files s f h) as [_ ->]. }
  assert (Hread : ∀ r g, DistributedFileSystem.read_file_at d' r g
                         = DistributedFileSystem.read_file_at d r g).
  { intros r g.
    destruct (DistributedFileSystem.is_available_at d r) eqn:Hr.
    - by rewrite !read_file_at_available, Hstored by by rewrite ?Hav.
    - by rewrite !read_file_at_unavailable by by rewrite ?Hav. }
  split; [done|]. split; [done|]. split; [done|]. split.
  - intros g q. rewrite !get_primary_server_Ok, Hat.
    destruct (DistributedFileSystem.server_at d q) as [s|]; simpl.
    + split; intros [? _]; by eauto.
    + split; intros [? [? ?]]; done.
  - intros g preferred_dc. unfold DistributedFileSystem.read_file.
    assert (Hbest : DistributedFileSystem.get_best_server_for_read d' preferred_dc
                    = DistributedFileSystem.get_best_server_for_read d preferred_dc).
    { unfold DistributedFileSystem.get_best_server_for_read.
      fold (DistributedFileSystem.server_at d' preferred_dc).
      fold (DistributedFileSystem.server_at d preferred_dc).
      assert (Hfind : List.find (DistributedFileSystem.is_available_at d')
                        (DistributedFileSystem.get_all_servers d')
                      = List.find (DistributedFileSystem.is_available_at d)
                          (DistributedFileSystem.get_all_servers d)).
      { unfold d' at 2. rewrite get_all_servers_update_at.
        induction (DistributedFileSystem.get_all_servers d) as [|r l IH]; [done|].
        simpl. by rewrite Hav, IH. }
      rewrite Hfind, Hat.
      destruct (DistributedFileSystem.server_at d preferred_dc) as [s|]; [|done].
      simpl. destruct (decide (p = preferred_dc)); [|done].
      unfold Server.is_available. by destruct (register_files s f h) as [_ ->]. }
    rewrite Hbest.
    destruct (DistributedFileSystem.get_best_server_for_read d preferred_dc);
      [by rewrite Hread | done].
Qed.



(** After a read that answers [x], the reader's cache holds a valid entry
    for the file with content [x].  When the cache had no entry for the file,
    [x] is what an available replica stores, the new entry carries that
    replica's version, and the reader is subscribed at the primary. *)
Theorem read_file_caches (A : nat) (f x : string) (w w' : Client.World) :
  Client.read_file A f w = (Ok x, w') →
  (∃ e, Client.cache (Client.clients w' A) !! f = Some e
        ∧ CacheEntry.valid e = true ∧ CacheEntry.content e = x)
  ∧ (Client.cache (Client.clients w A) !! f = None →
     ∃ r fv p,
       DistributedFileSystem.is_available_at (Client.dfs w) r = true
       ∧ stored (Client.dfs w) r f = Some fv
       ∧ x = FileVersion.content fv
       ∧ Client.cache (Client.clients w' A) !! f
         = Some (CacheEntry.new x (FileVersion.version fv))
       ∧ DistributedFileSystem.get_primary_server (Client.dfs w) f = Ok p
       ∧ subscribed (Client.dfs w') p f A).
Proof.
  rewrite read_file_spec.
  destruct (DistributedFileSystem.get_primary_server (Client.dfs w) f) as [p|e0] eqn:Hp;
    [|done].
  assert (Href : Client.refresh A f p w = (Ok x, w') →
    ∃ r fv,
      DistributedFileSystem.is_available_at (Client.dfs w) r = true
      ∧ stored (Client.dfs w) r f = Some fv
      ∧ x = FileVersion.content fv
      ∧ Client.cache (Client.clients w' A) !! f
        = Some (CacheEntry.new x (FileVersion.version fv))
      ∧ subscribed (Client.dfs w') p f A).
  { intros Hrefresh. pose proof (refresh_subscribes A f p w x w' Hp Hrefresh) as Hsub.
    revert Hrefresh. rewrite refresh_spec. unfold DistributedFileSystem.read_file.
    destruct (DistributedFileSystem.get_best_server_for_read (Client.dfs w) _)
      as [r|] eqn:Hr; [|done].
    pose proof (get_best_server_available _ _ _ Hr) as Hav.
    rewrite read_file_at_available by done.
    destruct (stored (Client.dfs w) r f) as [rf|] eqn:Hrf; [|done].
    intros [= <- <-]. exists r, rf. simpl. unfold Client.update.
    rewrite decide_True by done. simpl. by rewrite lookup_insert_eq. }
  destruct (Client.cache (Client.clients w A) !! f) as [entry|] eqn:Hentry.
  - destruct (CacheEntry.valid entry) eqn:Hvalid; simpl.
    + destruct (bool_decide _).
      * intros [= <- <-]. split; [|done]. by exists entry.
      * intros (r & fv & _ & _ & _ & Hcache & _)%Href. split; [|done].
        by eexists.
    + intros (r & fv & _ & _ & _ & Hcache & _)%Href. split; [|done]. by eexists.
  - intros (r & fv & Hav & Hfv & Hx & Hcache & Hsub)%Href. split; [by eexists|].
    intros _. by exists r, fv, p.
Qed.

Lemma read_file_caches_witness :
  ∃ e, Client.cache
         (Client.clients (Client.read_file 1 "file1.txt" main_world).2 1%nat)
       !! "file1.txt" = Some e
       ∧ CacheEntry.valid e = true
       ∧ CacheEntry.content e = "Initial content of file1".
Proof.
  apply (read_file_caches 1 "file1.txt" "Initial content of file1" main_world
           (Client.read_file 1 "file1.txt" main_world).2).
  reflexivity.
Defined.

(** The two states a read can end in: the one it started from, or that one
    with the reader's entry for the file replaced and the reader subscribed at
    the primary. *)
Lemma read_file_states A f w :
  (Client.read_file A f w).2 = w
  ∨ ∃ p rf,
      DistributedFileSystem.get_primary_server (Client.dfs w) f = Ok p
      ∧ DistributedFileSystem.read_file (Client.dfs w) f
          (Client.preferred_dc (Client.clients w A)) = Ok (Some rf)
      ∧ Client.read_file A f w
        = (Ok (FileVersion.content rf),
           {| Client.dfs :=
                DistributedFileSystem.update_at (Client.dfs w) p (λ s,
                  Server.register_cache_listener s f (invalidate_cache_entry_of A));
              Client.clients :=
                Client.update (Client.clients w) A (λ c,
                  Client.set_cache c
                    (<[f := CacheEntry.new (FileVersion.content rf)
                              (FileVersion.version rf)]> (Client.cache c))) |}).
Proof.
  rewrite read_file_spec.
  destruct (DistributedFileSystem.get_primary_server (Client.dfs w) f) as [p|e] eqn:Hp;
    [|by left].
  assert (Href : (Client.refresh A f p w).2 = w
    ∨ ∃ p0 rf,
        Ok p = Ok p0
        ∧ DistributedFileSystem.read_file (Client.dfs w) f
            (Client.preferred_dc (Client.clients w A)) = Ok (Some rf)
        ∧ Client.refresh A f p w
          = (Ok (FileVersion.content rf),
             {| Client.dfs :=
                  DistributedFileSystem.update_at (Client.dfs w) p0 (λ s,
                    Server.register_cache_listener s f (invalidate_cache_entry_of A));
                Client.clients :=
                  Client.update (Client.clients w) A (λ c,
                    Client.set_cache c
                      (<[f := CacheEntry.new (FileVersion.content rf)
                                (FileVersion.version rf)]> (Client.cache c))) |})).
  { rewrite refresh_spec.
    destruct (DistributedFileSystem.read_file _ _ _) as [[rf|]|e];
      [right; by exists p, rf | by left | by left]. }
  destruct (Client.cache (Client.clients w A) !! f) as [entry|]; [|done].
  destruct (CacheEntry.valid entry && bool_decide _); [by left | done].
Qed.

(** The subscriber lists after a subscription at [p] for [f]. *)
Lemma listeners_after_subscribe d p f h :
  is_Some (DistributedFileSystem.server_at d p) →
  ∀ r g,
    listeners_at
      (DistributedFileSystem.update_at d p (λ s, Server.register_cache_listener s f h))
      r g
    = if decide (p = r ∧ f = g)
      then if decide (h ∈ listeners_at d r g)
           then listeners_at d r g
           else listeners_at d r g ++ [h]
      else listeners_at d r g.
Proof.
  intros [s0 Hs0] r g. unfold listeners_at. rewrite server_at_update_at.
  destruct (decide (p = r)) as [<-|Hne].
  - rewrite Hs0. simpl. rewrite register_listeners.
    destruct (decide (f = g)) as [<-|Hfg].
    + by rewrite (decide_True (P := p = p ∧ f = f)).
    + rewrite (decide_False (P := p = p ∧ f = g)); [done|]. by intros [_ ?].
  - rewrite decide_False; [done|]. by intros [? _].
Qed.

(** What a read never touches: the replicas and their order, the primary
    table, every stored file, which replicas are up, every other client, the
    reader's name and site, and the reader's entries for other files.
    Subscriber lists only grow, and only the list for the file read at its
    primary can change. *)
Theorem read_file_frame (A : nat) (f : string) (w : Client.World) :
  let w' := (Client.read_file A f w).2 in
  DistributedFileSystem.get_all_servers (Client.dfs w')
  = DistributedFileSystem.get_all_servers (Client.dfs w)
  ∧ DistributedFileSystem.primary_table (Client.dfs w')
    = DistributedFileSystem.primary_table (Client.dfs w)
  ∧ (∀ r g, stored (Client.dfs w') r g = stored (Client.dfs w) r g
            ∧ DistributedFileSystem.is_available_at (Client.dfs w') r
              = DistributedFileSystem.is_available_at (Client.dfs w) r)
  ∧ (∀ r g h, h ∈ listeners_at (Client.dfs w) r g → h ∈ listeners_at (Client.dfs w') r g)
  ∧ (∀ r g, listeners_at (Client.dfs w') r g ≠ listeners_at (Client.dfs w) r g →
            g = f ∧ DistributedFileSystem.get_primary_server (Client.dfs w) f = Ok r)
  ∧ (∀ B, B ≠ A → Client.clients w' B = Client.clients w B)
  ∧ Client.name (Client.clients w' A) = Client.name (Client.clients w A)
  ∧ Client.preferred_dc (Client.clients w' A) = Client.preferred_dc (Client.clients w A)
  ∧ (∀ g, g ≠ f → Client.cache (Client.clients w' A) !! g
                  = Client.cache (Client.clients w A) !! g).
Proof.
  simpl. destruct (read_file_states A f w) as [-> | (p & rf & Hp & _ & ->)].
  { repeat split; done. }
  simpl.
  destruct (subscribe_invisible (Client.dfs w) p f (invalidate_cache_entry_of A))
    as (Hstored & Hav & _).
  assert (Hserver : is_Some (DistributedFileSystem.server_at (Client.dfs w) p))
    by by apply get_primary_server_Ok in Hp as [_ ?].
  pose proof (listeners_after_subscribe (Client.dfs w) p f (invalidate_cache_entry_of A)
                Hserver) as Hlisteners.
  split; [apply get_all_servers_update_at|]. split; [done|].
  split; [by intros r g|]. split; [|split; [|split; [|split; [|split]]]].
  - intros r g h Hh. rewrite Hlisteners.
    destruct (decide (p = r ∧ f = g)); [|done].
    destruct (decide _); [done|]. apply elem_of_app. by left.
  - intros r g. rewrite Hlisteners.
    destruct (decide (p = r ∧ f = g)) as [[<- <-]|]; [done|]. by intros [].
  - intros B HB. unfold Client.update. by rewrite decide_False.
  - unfold Client.update. by rewrite decide_True.
  - unfold Client.update. by rewrite decide_True.
  - intros g Hg. unfold Client.update. rewrite decide_True by done. simpl.
    by rewrite lookup_insert_ne.
Qed.

(** Reading twice is reading once: right after a read that answered [x], the
    same read by the same client answers [x] again and leaves the coordinator
    and every client as the first read left them. *)
Theorem read_file_twice (A : nat) (f x : string) (w w1 : Client.World) :
  Client.read_file A f w = (Ok x, w1) →
  ∃ w2, Client.read_file A f w1 = (Ok x, w2)
        ∧ Client.dfs w2 = Client.dfs w1
        ∧ ∀ a, Client.clients w2 a = Client.clients w1 a.
Proof.
  intros Hread.
  destruct (read_file_states A f w) as [Hsame | (p & rf & Hp & Hrf & Hrefresh)].
  { rewrite Hread in Hsame. simpl in Hsame. subst w1. by exists w. }
  rewrite Hrefresh in Hread. injection Hread as <- <-.
  set (reg := λ s, Server.register_cache_listener s f (invalidate_cache_entry_of A)).
  set (e := CacheEntry.new (FileVersion.content rf) (FileVersion.version rf)).
  set (w1 := {| Client.dfs := _; Client.clients := _ |}).
  destruct (subscribe_invisible (Client.dfs w) p f (invalidate_cache_entry_of A))
    as (_ & _ & _ & Hprimary & Hdfs_read).
  assert (Hp1 : DistributedFileSystem.get_primary_server (Client.dfs w1) f = Ok p)
    by by apply Hprimary.
  assert (Hentry : Client.cache (Client.clients w1 A) !! f = Some e).
  { simpl. unfold Client.update. rewrite decide_True by done. simpl.
    by rewrite lookup_insert_eq. }
  rewrite read_file_spec, Hp1, Hentry. simpl.
  destruct (bool_decide _); [by exists w1|].
  rewrite refresh_spec.
  assert (Hpref : Client.preferred_dc (Client.clients w1 A)
                  = Client.preferred_dc (Client.clients w A)).
  { simpl. unfold Client.update. by rewrite decide_True. }
  rewrite Hpref. simpl. rewrite Hdfs_read, Hrf.
  eexists. split; [done|]. simpl. split.
  - apply update_at_id. intros s. rewrite server_at_update_at, decide_True by done.
    destruct (DistributedFileSystem.server_at (Client.dfs w) p) as [s0|]; [|done].
    simpl. intros [= <-]. apply register_again, register_listed.
  - intros a. unfold Client.update. destruct (decide (a = A)) as [->|]; [|done].
    unfold Client.set_cache. simpl. by rewrite insert_insert_eq.
Qed.

Lemma read_file_twice_witness :
  ∃ w2, Client.read_file 1 "file1.txt" (Client.read_file 1 "file1.txt" main_world).2
        = (Ok "Initial content of file1", w2)
        ∧ Client.dfs w2 = Client.dfs (Client.read_file 1 "file1.txt" main_world).2
        ∧ ∀ a, Client.clients w2 a
               = Client.clients (Client.read_file 1 "file1.txt" main_world).2 a.
Proof.
  apply (read_file_twice 1 "file1.txt" "Initial content of file1" main_world).
  reflexivity.
Defined.

(** ** Client writes and invalidation *)

(** [write_file] raises only [KeyError], and exactly when the file has no
    primary to be found; in every other case it returns normally, so that a
    write refused for lack of quorum and a committed one look the same to the
    caller.  A refused or failed write changes nothing at all. *)
Theorem write_file_outcome (A : nat) (f c : string) (w : Client.World) :
  let out := Client.write_file A f c w in
  let found := ∃ p, DistributedFileSystem.get_primary_server (Client.dfs w) f = Ok p in
  (found → out.1 = Ok tt)
  ∧ (¬ found → out = (Raise KeyError, w))
  ∧ (found → (quorum_size (Client.dfs w) < 2)%nat → out = (Ok tt, w)).
Proof.
  simpl. unfold Client.write_file, Client.bind.
  destruct (write_cases (Client.dfs w) f c (Client.clients w))
    as [(e & Hp & He) | [(q & Hp & Hq & He) | (q & d2 & Hp & Hq & _)]].
  - unfold Client.write_file_with_quorum. rewrite He. simpl.
    assert (e = KeyError) as -> by by apply get_primary_server_Raise in Hp as [-> _].
    split; [intros [p Hp']; congruence|]. split; [by destruct w|].
    intros [p Hp']; congruence.
  - unfold Client.write_file_with_quorum. rewrite He. simpl.
    split; [done|]. split; [intros Hn; exfalso; apply Hn; by exists q|].
    intros _ _. by destruct w.
  - destruct (write_file_commit A f c w q Hp Hq) as (d' & Hw & _ & _ & Hwrite).
    unfold Client.write_file, Client.bind in Hwrite. rewrite Hwrite. simpl.
    split; [done|]. split; [intros Hn; exfalso; apply Hn; by exists q|].
    intros _ Hlt. lia.
Qed.

Lemma write_file_outcome_witness :
  Client.write_file 0 "file1.txt" "new" all_down_world = (Ok tt, all_down_world)
  ∧ Client.write_file 0 "file4.txt" "new" main_world = (Raise KeyError, main_world).
Proof.
  destruct (write_file_outcome 0 "file1.txt" "new" all_down_world) as (_ & _ & Hrefused).
  destruct (write_file_outcome 0 "file4.txt" "new" main_world) as (_ & Hraise & _).
  split.
  - apply Hrefused; [by exists NEW_YORK | vm_compute; lia].
  - apply Hraise. intros [p Hp]. discriminate Hp.
Defined.

(** [invalidate_cache_entry] only ever clears the [valid] flag of the entry
    for the named file: doing it twice is doing it once, the entry keeps its
    content and version, no entry appears for a file that had none, and the
    entries of other files are untouched. *)
Theorem invalidate_cache_entry_effect (c : Client.t) (f g : string) :
  let c' := Client.invalidate_cache_entry c f in
  Client.invalidate_cache_entry c' f = c'
  ∧ Client.name c' = Client.name c
  ∧ Client.preferred_dc c' = Client.preferred_dc c
  ∧ (Client.cache c !! f = None → c' = c)
  ∧ (∀ e, Client.cache c !! f = Some e →
          Client.cache c' !! f
          = Some (CacheEntry.mk (CacheEntry.content e) (CacheEntry.version e) false))
  ∧ (g ≠ f → Client.cache c' !! g = Client.cache c !! g).
Proof.
  simpl. destruct (invalidate_cache_entry_attrs c f) as [Hname Hpref].
  split; [apply invalidate_cache_entry_idemp|]. split; [done|]. split; [done|].
  split; [|split].
  - intros Hnone. unfold Client.invalidate_cache_entry. by rewrite Hnone.
  - intros e He. by rewrite invalidate_cache_entry_lookup, decide_True, He.
  - intros Hne. by rewrite invalidate_cache_entry_lookup, decide_False.
Qed.

(** ** Invariants of runs *)

Lemma commit_listeners_at d d' f c v :
  (∀ r, DistributedFileSystem.server_at d' r
        = commit f c v <$> DistributedFileSystem.server_at d r) →
  ∀ r g, listeners_at d' r g = listeners_at d r g.
Proof.
  intros Hall r g. unfold listeners_at, Server.listeners_of. rewrite Hall.
  destruct (DistributedFileSystem.server_at d r) as [s|]; [|done]. simpl.
  unfold commit. by rewrite apply_update_listeners.
Qed.

(** A client write leaves the configuration and every subscriber list. *)
Lemma client_write_config A f c w :
  let d' := Client.dfs (Client.write_file A f c w).2 in
  DistributedFileSystem.get_all_servers d'
  = DistributedFileSystem.get_all_servers (Client.dfs w)
  ∧ DistributedFileSystem.primary_table d'
    = DistributedFileSystem.primary_table (Client.dfs w)
  ∧ ∀ r g, listeners_at d' r g = listeners_at (Client.dfs w) r g.
Proof.
  simpl.
  destruct (write_cases (Client.dfs w) f c (Client.clients w))
    as [(e & _ & He) | [(q & _ & _ & He) | (q & d2 & Hq & Hquorum & _)]].
  - destruct (write_file_not_committed A f c w) as [_ ->]; [|done].
    unfold Client.write_file_with_quorum. by rewrite He.
  - destruct (write_file_not_committed A f c w) as [_ ->]; [|done].
    unfold Client.write_file_with_quorum. by rewrite He.
  - destruct (write_commit (Client.dfs w) f c (Client.clients w) q Hq Hquorum)
      as (d' & Hw & Hk & Ht & Hall).
    destruct (write_file_commit A f c w q Hq Hquorum) as (d'' & Hw' & _ & _ & Hwrite).
    simpl in Hw'. unfold Client.write_file_with_quorum in Hw'. rewrite Hw in Hw'.
    injection Hw' as <-. rewrite Hwrite. simpl.
    split; [done|]. split; [done|]. by eapply commit_listeners_at.
Qed.

(** One action leaves the configuration, and leaves each subscriber list or
    appends one new subscriber to the list of a file at its primary. *)
Lemma act_subscribers w a :
  DistributedFileSystem.get_all_servers (Client.dfs (act w a))
  = DistributedFileSystem.get_all_servers (Client.dfs w)
  ∧ DistributedFileSystem.primary_table (Client.dfs (act w a))
    = DistributedFileSystem.primary_table (Client.dfs w)
  ∧ ∀ r g,
      listeners_at (Client.dfs (act w a)) r g = listeners_at (Client.dfs w) r g
      ∨ ∃ h, DistributedFileSystem.primary_table (Client.dfs w) !! g = Some r
             ∧ (h ∉ listeners_at (Client.dfs w) r g)
             ∧ listeners_at (Client.dfs (act w a)) r g
               = listeners_at (Client.dfs w) r g ++ [h].
Proof.
  destruct a as [A f|A f c|r0 b].
  - simpl. destruct (read_file_states A f w) as [-> | (p & rf & Hp & _ & ->)].
    { split; [done|]. split; [done|]. by left. }
    simpl. apply get_primary_server_Ok in Hp as [Ht Hserver].
    split; [apply get_all_servers_update_at|]. split; [done|]. intros r g.
    rewrite (listeners_after_subscribe _ _ _ _ Hserver).
    destruct (decide (p = r ∧ f = g)) as [[<- <-]|]; [|by left].
    destruct (decide _) as [|Hout]; [by left|]. right. by eexists.
  - simpl. destruct (client_write_config A f c w) as (Hk & Ht & Hl).
    split; [done|]. split; [done|]. intros r g. left. apply Hl.
  - change (act w (ASetAvailable r0 b)) with (toggles [(r0, b)] w).
    destruct (toggles_spec [(r0, b)] w) as (Ht & _ & _).
    split; [apply get_all_servers_update_at|]. split; [done|]. intros r g. left.
    apply toggles_listeners_at.
Qed.

(** Along every run of reads, writes and availability toggles the replicas,
    their order and the primary table stay as they were built, and no
    subscriber is ever removed. *)
Theorem acts_keep_configuration (l : list Action) (w : Client.World) :
  DistributedFileSystem.get_all_servers (Client.dfs (acts l w))
  = DistributedFileSystem.get_all_servers (Client.dfs w)
  ∧ DistributedFileSystem.primary_table (Client.dfs (acts l w))
    = DistributedFileSystem.primary_table (Client.dfs w)
  ∧ ∀ r g h, h ∈ listeners_at (Client.dfs w) r g →
             h ∈ listeners_at (Client.dfs (acts l w)) r g.
Proof.
  revert w. induction l as [|a l IH]; intros w; [done|].
  change (acts (a :: l) w) with (acts l (act w a)).
  destruct (IH (act w a)) as (Hk & Ht & Hl).
  destruct (act_subscribers w a) as (Hk' & Ht' & Hl').
  split; [by rewrite Hk|]. split; [by rewrite Ht|]. intros r g h Hh. apply Hl.
  destruct (Hl' r g) as [-> | (h' & _ & _ & ->)]; [done|]. apply elem_of_app. by left.
Qed.

(** Along every run, clients are subscribed for a file only at that file's
    primary, and no subscriber list holds a client twice, so that every push
    reaches a subscribed client exactly once, provided both were so at the
    start (as when no client is subscribed yet). *)
Theorem acts_keep_subscriptions (l : list Action) (w : Client.World) :
  subscriptions_at_primaries (Client.dfs w) →
  listeners_distinct (Client.dfs w) →
  subscriptions_at_primaries (Client.dfs (acts l w))
  ∧ listeners_distinct (Client.dfs (acts l w)).
Proof.
  revert w. induction l as [|a l IH]; intros w Hsub Hnd; [done|].
  change (acts (a :: l) w) with (acts l (act w a)).
  destruct (act_subscribers w a) as (_ & Ht & Hl).
  apply IH.
  - intros r g A. unfold subscribed. rewrite Ht.
    destruct (Hl r g) as [-> | (h & Hp & _ & ->)]; [apply Hsub | done].
  - intros r g. destruct (Hl r g) as [-> | (h & _ & Hout & ->)]; [apply Hnd|].
    apply NoDup_app. split; [apply Hnd|]. split; [|apply NoDup_singleton].
    intros x Hx Hx'. apply list_elem_of_singleton in Hx'. by subst.
Qed.

Lemma acts_keep_subscriptions_witness :
  let w := acts [ARead 0 "file1.txt"; ARead 1 "file1.txt";
                 AWrite 0 "file1.txt" "Updated by Alice at New York";
                 ASetAvailable LONDON false; ARead 1 "file1.txt"] main_world in
  subscriptions_at_primaries (Client.dfs w) ∧ listeners_distinct (Client.dfs w).
Proof.
  apply (acts_keep_subscriptions
           [ARead 0 "file1.txt"; ARead 1 "file1.txt";
            AWrite 0 "file1.txt" "Updated by Alice at New York";
            ASetAvailable LONDON false; ARead 1 "file1.txt"] main_world).
  - intros r g A Hsub. destruct r; vm_compute in Hsub; by apply elem_of_nil in Hsub.
  - intros r g. destruct r; vm_compute; apply NoDup_nil_2.
Defined.

(** ** Reading after writing, and writing twice *)

Lemma quorum_size_commit d d' f c v :
  DistributedFileSystem.get_all_servers d' = DistributedFileSystem.get_all_servers d →
  (∀ r, DistributedFileSystem.server_at d' r
        = commit f c v <$> DistributedFileSystem.server_at d r) →
  quorum_size d' = quorum_size d.
Proof.
  intros Hk Hall. unfold quorum_size. rewrite Hk. f_equal.
  apply list_filter_iff. intros r.
  by rewrite (commit_keeps_availability _ _ _ _ _ _ Hall).
Qed.

Lemma quorum_some_available d :
  (1 ≤ quorum_size d)%nat →
  ∃ r, r ∈ DistributedFileSystem.get_all_servers d
       ∧ DistributedFileSystem.is_available_at d r = true.
Proof.
  unfold quorum_size. intros Hq.
  destruct (filter _ (DistributedFileSystem.get_all_servers d)) as [|r l] eqn:Hf;
    [simpl in Hq; lia|].
  assert (Hr : r ∈ filter (λ s, DistributedFileSystem.is_available_at d s = true)
                 (DistributedFileSystem.get_all_servers d)) by (rewrite Hf; by left).
  apply list_elem_of_filter in Hr as [? ?]. by exists r.
Qed.

(** After a committed write, every read through the coordinator answers the
    written content, whichever site is preferred; it carries the primary's
    previous version plus one when the primary was available, and version 1
    when it was not. *)
Theorem read_after_write
    (d : DistributedFileSystem.t) (f c : string) (h : Client.Heap)
    (preferred_dc : DataCenter) (p : DataCenter) :
  let out := DistributedFileSystem.write_file_with_quorum Client.call d f c h in
  out.1.1 = Ok true →
  DistributedFileSystem.get_primary_server d f = Ok p →
  ∃ fv,
    DistributedFileSystem.read_file out.1.2 f preferred_dc = Ok (Some fv)
    ∧ FileVersion.content fv = c
    ∧ FileVersion.version fv
      = if DistributedFileSystem.is_available_at d p
        then stored_version d p f + 1
        else 1.
Proof.
  simpl. intros Hok Hp.
  destruct (write_cases d f c h)
    as [(e & _ & He) | [(q & _ & _ & He) | (q & d2 & Hq & Hquorum & He & Hk & _ & Hall)]];
    rewrite He in Hok |- *; try discriminate Hok. simpl.
  assert (q = p) as -> by congruence.
  destruct (quorum_some_available d) as (r0 & Hr0 & Hav0); [lia|].
  unfold DistributedFileSystem.read_file.
  destruct (DistributedFileSystem.get_best_server_for_read d2 preferred_dc)
    as [r|] eqn:Hr.
  - pose proof (get_best_server_available _ _ _ Hr) as Hav.
    rewrite read_file_at_available by done.
    rewrite (stored_after_commit _ _ _ _ _ Hall).
    rewrite (commit_keeps_availability _ _ _ _ _ _ Hall) in Hav.
    rewrite decide_True by done. eexists. split; [done|]. split; [done|]. simpl.
    destruct (DistributedFileSystem.is_available_at d p) eqn:Hpav.
    + by rewrite read_file_at_available.
    + by rewrite read_file_at_unavailable.
  - pose proof (proj1 (get_best_server_None d2 preferred_dc) Hr r0) as Hdown.
    rewrite Hk, (commit_keeps_availability _ _ _ _ _ _ Hall) in Hdown.
    specialize (Hdown Hr0). congruence.
Qed.

Lemma read_after_write_witness :
  let out := DistributedFileSystem.write_file_with_quorum Client.call
               (Client.dfs primary_down_world) "file1.txt" "Second update"
               main_clients in
  ∃ fv,
    DistributedFileSystem.read_file out.1.2 "file1.txt" LONDON = Ok (Some fv)
    ∧ FileVersion.content fv = "Second update"
    ∧ FileVersion.version fv = 1.
Proof.
  apply (read_after_write (Client.dfs primary_down_world) "file1.txt" "Second update"
           main_clients LONDON NEW_YORK); reflexivity.
Defined.

(** ** Writes of different files *)

Lemma apply_update_available s f c v :
  Server.alive s = true →
  Server.apply_update s f c v
  = Server.set_files s
      (<[f := FileVersion.new (from_option FileVersion.name f (Server.files s !! f)) c v]>
         (Server.files s)).
Proof.
  intros Hs. unfold Server.apply_update, Server.is_available. rewrite Hs. simpl.
  by destruct (Server.files s !! f).
Qed.

Lemma commit_commute s f g cf cg vf vg :
  f ≠ g → commit g cg vg (commit f cf vf s) = commit f cf vf (commit g cg vg s).
Proof.
  intros Hne. unfold commit. destruct (Server.alive s) eqn:Hs.
  - rewrite (apply_update_available s f), (apply_update_available s g) by done.
    rewrite !apply_update_available by done. simpl.
    rewrite !lookup_insert_ne by done. unfold Server.set_files. simpl.
    f_equal. by apply insert_insert_ne.
  - by rewrite !(apply_update_unavailable s) by done.
Qed.

Lemma invalidate_commute c f g :
  f ≠ g →
  Client.invalidate_cache_entry (Client.invalidate_cache_entry c f) g
  = Client.invalidate_cache_entry (Client.invalidate_cache_entry c g) f.
Proof.
  intros Hne. unfold Client.invalidate_cache_entry.
  destruct (Client.cache c !! f) as [ef|] eqn:Hf,
    (Client.cache c !! g) as [eg|] eqn:Hg; simpl;
    rewrite ?lookup_insert_ne, ?Hf, ?Hg by done; try done.
  unfold Client.set_cache. simpl. f_equal. by apply insert_insert_ne.
Qed.

(** A coordinator write in closed form. *)
Lemma write_closed_form d f c (h : Client.Heap) :
  let out := DistributedFileSystem.write_file_with_quorum Client.call d f c h in
  let m := if commits d f then commit f c (next_version d f) else id in
  out.1.1 = match DistributedFileSystem.get_primary_server d f with
            | Ok _ => Ok (commits d f)
            | Raise e => Raise e
            end
  ∧ DistributedFileSystem.get_all_servers out.1.2 = DistributedFileSystem.get_all_servers d
  ∧ DistributedFileSystem.primary_table out.1.2 = DistributedFileSystem.primary_table d
  ∧ (∀ r, DistributedFileSystem.server_at out.1.2 r
          = m <$> DistributedFileSystem.server_at d r)
  ∧ ∀ a, out.2 a
         = if commits d f && bool_decide (invalidate_cache_entry_of a ∈ notified d f)
           then Client.invalidate_cache_entry (h a) f
           else h a.
Proof.
  simpl. unfold commits, next_version, notified.
  destruct (write_cases d f c h)
    as [(e & Hp & He) | [(q & Hp & Hq & He) | (q & d2 & Hp & Hq & He & Hk & Ht & Hall)]];
    rewrite He, Hp; simpl.
  - split; [done|]. split; [done|]. split; [done|].
    split; [intros r; by rewrite option_fmap_id | done].
  - apply Nat.ltb_lt in Hq as ->. simpl.
    split; [done|]. split; [done|]. split; [done|].
    split; [intros r; by rewrite option_fmap_id | done].
  - apply Nat.ltb_ge in Hq as ->. simpl.
    split; [done|]. split; [done|]. split; [done|]. split; [done|].
    intros a. rewrite run_calls_push.
    destruct (decide _) as [Hin|Hout].
    + by rewrite bool_decide_eq_true_2.
    + by rewrite bool_decide_eq_false_2.
Qed.

(** A change of the servers that keeps availability, subscribers and the
    stored file [g] is not seen by a write of [g]. *)
Lemma write_blind d d' g (m : Server.t → Server.t) :
  DistributedFileSystem.get_all_servers d' = DistributedFileSystem.get_all_servers d →
  DistributedFileSystem.primary_table d' = DistributedFileSystem.primary_table d →
  (∀ r, DistributedFileSystem.server_at d' r = m <$> DistributedFileSystem.server_at d r) →
  (∀ s, Server.alive (m s) = Server.alive s
        ∧ Server._cache_listeners (m s) = Server._cache_listeners s
        ∧ Server.files (m s) !! g = Server.files s !! g) →
  DistributedFileSystem.get_primary_server d' g
  = DistributedFileSystem.get_primary_server d g
  ∧ commits d' g = commits d g
  ∧ next_version d' g = next_version d g
  ∧ notified d' g = notified d g.
Proof.
  intros Hk Ht Hall Hm.
  assert (Hp : DistributedFileSystem.get_primary_server d' g
               = DistributedFileSystem.get_primary_server d g).
  { unfold DistributedFileSystem.get_primary_server. rewrite Ht.
    destruct (DistributedFileSystem.primary_table d !! g) as [q|]; [|done].
    fold (DistributedFileSystem.server_at d' q) (DistributedFileSystem.server_at d q).
    rewrite Hall. by destruct (DistributedFileSystem.server_at d q). }
  assert (Hav : ∀ r, DistributedFileSystem.is_available_at d' r
                     = DistributedFileSystem.is_available_at d r).
  { intros r. unfold DistributedFileSystem.is_available_at, Server.is_available.
    rewrite Hall. destruct (DistributedFileSystem.server_at d r) as [s|]; [|done].
    simpl. by destruct (Hm s) as [-> _]. }
  assert (Hq : quorum_size d' = quorum_size d).
  { unfold quorum_size. rewrite Hk. f_equal. apply list_filter_iff. intros r.
    by rewrite Hav. }
  split; [done|]. unfold commits, next_version, notified. rewrite Hp, Hq.
  split; [done|].
  destruct (DistributedFileSystem.get_primary_server d g) as [p|e]; [|done]. split.
  - unfold DistributedFileSystem.read_file_at, Server.read_file, Server.is_available.
    rewrite Hall. destruct (DistributedFileSystem.server_at d p) as [s|]; [|done].
    simpl. by destruct (Hm s) as (-> & _ & ->).
  - unfold listeners_at, Server.listeners_of. rewrite Hall.
    destruct (DistributedFileSystem.server_at d p) as [s|]; [|done].
    simpl. by destruct (Hm s) as (_ & -> & _).
Qed.

Lemma write_blind_to_other_file d f g c (h : Client.Heap) :
  f ≠ g →
  let d' := (DistributedFileSystem.write_file_with_quorum Client.call d f c h).1.2 in
  DistributedFileSystem.get_primary_server d' g
  = DistributedFileSystem.get_primary_server d g
  ∧ commits d' g = commits d g
  ∧ next_version d' g = next_version d g
  ∧ notified d' g = notified d g.
Proof.
  intros Hne. simpl.
  destruct (write_closed_form d f c h) as (_ & Hk & Ht & Hall & _).
  apply (write_blind _ _ _ _ Hk Ht Hall). intros s.
  destruct (commits d f); [|done]. unfold commit.
  split; [apply apply_update_alive|]. split; [apply apply_update_listeners|].
  fold (commit f c (next_version d f) s). rewrite stored_commit.
  rewrite decide_False; [done|]. by intros [? _].
Qed.

(** Writes of two different files commute: in either order both writes have
    the same outcomes, and every replica and every client ends up the same. *)
Theorem writes_commute
    (d : DistributedFileSystem.t) (f g cf cg : string) (h : Client.Heap) :
  f ≠ g →
  let write := DistributedFileSystem.write_file_with_quorum Client.call in
  let f_first := write d f cf h in
  let then_g := write f_first.1.2 g cg f_first.2 in
  let g_first := write d g cg h in
  let then_f := write g_first.1.2 f cf g_first.2 in
  f_first.1.1 = then_f.1.1
  ∧ then_g.1.1 = g_first.1.1
  ∧ (∀ r, DistributedFileSystem.server_at then_g.1.2 r
          = DistributedFileSystem.server_at then_f.1.2 r)
  ∧ ∀ a, then_g.2 a = then_f.2 a.
Proof.
  intros Hne. simpl.
  destruct (write_closed_form d f cf h) as (Ho1 & _ & _ & Hs1 & Hh1).
  destruct (write_closed_form d g cg h) as (Ho2 & _ & _ & Hs2 & Hh2).
  destruct (write_blind_to_other_file d f g cf h Hne) as (Hp12 & Hc12 & Hv12 & Hn12).
  destruct (write_blind_to_other_file d g f cg h (not_eq_sym Hne))
    as (Hp21 & Hc21 & Hv21 & Hn21).
  simpl in *.
  set (out1 := DistributedFileSystem.write_file_with_quorum Client.call d f cf h) in *.
  set (out2 := DistributedFileSystem.write_file_with_quorum Client.call d g cg h) in *.
  destruct (write_closed_form out1.1.2 g cg out1.2) as (Ho12 & _ & _ & Hs12 & Hh12).
  destruct (write_closed_form out2.1.2 f cf out2.2) as (Ho21 & _ & _ & Hs21 & Hh21).
  simpl in *.
  rewrite Ho1, Ho12, Ho2, Ho21, Hp12, Hp21, Hc12, Hc21.
  split; [done|]. split; [done|]. split.
  - intros r. rewrite Hs12, Hs21, Hs1, Hs2, Hc12, Hc21, Hv12, Hv21.
    destruct (DistributedFileSystem.server_at d r) as [s|]; [|done]. simpl. f_equal.
    destruct (commits d f), (commits d g); simpl; try done.
    by apply commit_commute.
  - intros a. rewrite Hh12, Hh21, Hh1, Hh2, Hc12, Hc21, Hn12, Hn21.
    destruct (commits d f && bool_decide _), (commits d g && bool_decide _); try done.
    by apply invalidate_commute.
Qed.

Lemma writes_commute_witness :
  let write := DistributedFileSystem.write_file_with_quorum Client.call in
  let f_first := write build_system "file1.txt" "A" main_clients in
  let then_g := write f_first.1.2 "file2.txt" "B" f_first.2 in
  let g_first := write build_system "file2.txt" "B" main_clients in
  let then_f := write g_first.1.2 "file1.txt" "A" g_first.2 in
  f_first.1.1 = then_f.1.1
  ∧ then_g.1.1 = g_first.1.1
  ∧ (∀ r, DistributedFileSystem.server_at then_g.1.2 r
          = DistributedFileSystem.server_at then_f.1.2 r)
  ∧ ∀ a, then_g.2 a = then_f.2 a.
Proof.
  apply (writes_commute build_system "file1.txt" "file2.txt" "A" "B" main_clients).
  discriminate.
Defined.

(** ** Reading while the primary is down *)

(** A primary that is down counts as version 0.  The cache then answers only
    from a valid entry of version 0; an entry of any other version, valid or
    not, is bypassed and the read goes to the replicas, so that with every
    replica down the read fails in spite of the cached copy. *)
Theorem read_with_primary_down
    (A : nat) (f : string) (w : Client.World) (p : DataCenter) (e : CacheEntry.t) :
  DistributedFileSystem.get_primary_server (Client.dfs w) f = Ok p →
  DistributedFileSystem.is_available_at (Client.dfs w) p = false →
  Client.cache (Client.clients w A) !! f = Some e →
  (CacheEntry.valid e = true → CacheEntry.version e = 0 →
   Client.read_file A f w = (Ok (CacheEntry.content e), w))
  ∧ (CacheEntry.version e ≠ 0 → Client.read_file A f w = Client.refresh A f p w)
  ∧ (CacheEntry.version e ≠ 0 →
     (∀ r, r ∈ DistributedFileSystem.get_all_servers (Client.dfs w) →
           DistributedFileSystem.is_available_at (Client.dfs w) r = false) →
     Client.read_file A f w
     = (Raise (RuntimeError "No replica available to serve read"), w)).
Proof.
  intros Hp Hdown He.
  assert (Hbypass : CacheEntry.version e ≠ 0 →
                    Client.read_file A f w = Client.refresh A f p w).
  { intros Hv. rewrite read_file_spec, Hp, He, read_file_at_unavailable by done.
    simpl. rewrite bool_decide_eq_false_2 by done. by rewrite andb_false_r. }
  split; [|split; [done|]].
  - intros Hvalid Hv. rewrite read_file_spec, Hp, He, read_file_at_unavailable by done.
    simpl. by rewrite Hvalid, bool_decide_eq_true_2.
  - intros Hv Hall. rewrite (Hbypass Hv), refresh_spec.
    unfold DistributedFileSystem.read_file.
    by rewrite (proj2 (get_best_server_None _ _) Hall).
Qed.

Lemma read_with_primary_down_witness :
  let w := toggles [(NEW_YORK, false); (TORONTO, false); (LONDON, false)]
             (Client.read_file 1 "file1.txt" main_world).2 in
  Client.read_file 1 "file1.txt" w
  = (Raise (RuntimeError "No replica available to serve read"), w).
Proof.
  intros w.
  destruct (read_with_primary_down 1 "file1.txt" w NEW_YORK
              (CacheEntry.new "Initial content of file1" 1)) as (_ & _ & Hfail);
    [reflexivity | reflexivity | reflexivity |].
  apply Hfail; [discriminate|].
  intros r _. by destruct r.
Defined.

(** ** Instances *)

Lemma store_initial_file_read_witness :
  Server.read_file
    (Server.bring_up
       (Server.store_initial_file (Server.bring_down (Server.new LONDON))
          "file1.txt" "Initial content of file1" 7)) "file1.txt"
  = Some (FileVersion.new "file1.txt" "Initial content of file1" 7).
Proof.
  exact (store_initial_file_read (Server.bring_down (Server.new LONDON)) "file1.txt"
           "Initial content of file1" 7 "file1.txt").
Defined.

Lemma outage_and_recovery_witness :
  Server.read_file
    (Server.bring_up
       (Server.apply_update
          (Server.bring_down (store_initial_files (Server.new LONDON)))
          "file1.txt" "lost" 9)) "file1.txt"
  = Some (FileVersion.new "file1.txt" "Initial content of file1" 1).
Proof.
  destruct (outage_and_recovery (store_initial_files (Server.new LONDON))
              "file1.txt" "lost" 9 "file1.txt" "file1.txt") as (_ & _ & Hread & _).
  rewrite Hread. reflexivity.
Defined.

Lemma new_servers_witness :
  let ny1 := Server.store_initial_file (Server.new NEW_YORK) "file1.txt" "first" 1 in
  let ny2 := Server.store_initial_file (Server.new NEW_YORK) "file1.txt" "second" 1 in
  let d := DistributedFileSystem.new [ny1; Server.new TORONTO; ny2] ∅ in
  DistributedFileSystem.server_at d NEW_YORK = Some ny2.
Proof.
  intros ny1 ny2 d.
  destruct (new_servers [ny1; Server.new TORONTO; ny2] ∅) as (Hlookup & _).
  rewrite Hlookup. reflexivity.
Defined.

Lemma write_outcome_witness :
  (DistributedFileSystem.write_file_with_quorum Client.call
     (Client.dfs primary_down_world) "file1.txt" "Second update" main_clients).1.1
  = Ok true.
Proof.
  apply (write_outcome (Client.dfs primary_down_world) "file1.txt" "Second update"
           main_clients).
  split; [by exists NEW_YORK | vm_compute; lia].
Defined.

Lemma write_frame_witness :
  let d := Client.dfs (run [BringDown LONDON] main_world) in
  let d' := (DistributedFileSystem.write_file_with_quorum Client.call d "file1.txt"
               "Second update while London is down" main_clients).1.2 in
  DistributedFileSystem.server_at d' LONDON = DistributedFileSystem.server_at d LONDON.
Proof.
  intros d d'.
  destruct (write_frame d "file1.txt" "Second update while London is down"
              main_clients) as (_ & _ & Hrest).
  destruct (Hrest LONDON) as (_ & _ & _ & Hdown). apply Hdown. reflexivity.
Defined.

Lemma read_file_frame_witness :
  let w' := (Client.read_file 1 "file1.txt" main_world).2 in
  stored (Client.dfs w') LONDON "file1.txt"
  = stored (Client.dfs main_world) LONDON "file1.txt"
  ∧ Client.clients w' 0%nat = Client.clients main_world 0%nat.
Proof.
  intros w'.
  destruct (read_file_frame 1 "file1.txt" main_world)
    as (_ & _ & Hstored & _ & _ & Hothers & _).
  split; [apply Hstored | by apply Hothers].
Defined.

Lemma invalidate_cache_entry_effect_witness :
  let c := (Client.read_file 1 "file1.txt" main_world).2.(Client.clients) 1%nat in
  Client.cache (Client.invalidate_cache_entry c "file1.txt") !! "file1.txt"
  = Some (CacheEntry.mk "Initial content of file1" 1 false).
Proof.
  intros c.
  destruct (invalidate_cache_entry_effect c "file1.txt" "file1.txt")
    as (_ & _ & _ & _ & Hentry & _).
  apply (Hentry (CacheEntry.new "Initial content of file1" 1)). reflexivity.
Defined.

Lemma acts_keep_configuration_witness :
  let w := acts [ARead 1 "file1.txt"; ASetAvailable LONDON false;
                 AWrite 0 "file1.txt" "Updated by Alice at New York"] main_world in
  DistributedFileSystem.get_all_servers (Client.dfs w) = [NEW_YORK; TORONTO; LONDON]
  ∧ invalidate_cache_entry_of 1 ∈ listeners_at (Client.dfs w) NEW_YORK "file1.txt".
Proof.
  intros w.
  destruct (acts_keep_configuration
              [ASetAvailable LONDON false;
               AWrite 0 "file1.txt" "Updated by Alice at New York"]
              (act main_world (ARead 1 "file1.txt"))) as (Hk & _ & Hl).
  split.
  - exact Hk.
  - apply Hl. vm_compute. apply list_elem_of_singleton. reflexivity.
Defined.
